(** * dspy_code.rag.search: the code-search core, embedded and verified

    A shallow embedding of [src/dspy_code/rag/search.py] (class
    [CodeSearch]): keyword extraction, the lexical scorer, keyword,
    semantic and hybrid search, the result combiner, the re-ranker, the
    by-name lookup and the query cache.

    Conventions of the embedding.
    - A Python [str] is a [string] of ASCII characters; [str.lower], the
      substring test [in] and the regular expression [\w+] are written out
      below for ASCII text.
    - A Python [float] is an element of a type [F] carrying the operations
      of class [ScoreArith].  Two instances are given: IEEE binary64, built
      on the executable specification [SpecFloat] (the arithmetic CPython
      really runs), and the exact rationals [Q].  Theorems that depend on
      the order of scores take its laws from class [ScoreOrder]: [<] is
      asymmetric, it is transitive through every value that is not NaN,
      and a comparison that holds involves no NaN.  Both instances are
      proved to satisfy them, so these theorems hold of binary64 runs.
    - [list.sort(key=..., reverse=True)] is a stable sort that only ever
      asks [<] of two keys; it is embedded as a stable insertion sort.
    - A [SearchResult] object is embedded by its value.  The combiner and
      the re-ranker update results in place; [hybrid_search], their only
      caller in the class, hands them freshly built, pairwise distinct
      objects, for which update by value and update in place agree.
    - The scikit-learn vectoriser and numpy's [argsort] are outside the
      repository; they enter as a record of functions ([VectorBackend]). *)

From Stdlib Require Import ZArith QArith List String Ascii Bool Lia Lqa.
From Stdlib Require Import Sorting.Sorted Sorting.Permutation.
From Stdlib Require Import Floats.SpecFloat.
From stdpp Require Import gmap strings pretty.
Import ListNotations.

Local Open Scope string_scope.
Local Open Scope list_scope.

(** ** Float arithmetic *)

(** The operations the module uses on scores: literals and [int] to
    [float] conversion ([of_Q]), [+], [*], [/] on floats, the true
    division [a / b] of two [int]s ([int_div], the correctly rounded
    quotient; never called with [b = 0], where Python raises) and the
    comparison [<] (Python's [a > b] is [b < a]). *)
Class ScoreArith (F : Type) := {
  of_Q : Q -> F;
  fadd : F -> F -> F;
  fmul : F -> F -> F;
  fdiv : F -> F -> F;
  int_div : nat -> nat -> F;
  fltb : F -> F -> bool
}.

(** IEEE 754 binary64 with round-to-nearest-even. *)
Module Binary64.
Definition prec : Z := 53.
Definition emax : Z := 1024.

Definition of_Z (z : Z) : spec_float := binary_normalize prec emax z 0 false.

(** The double nearest to a rational whose numerator and denominator
    are themselves doubles: one correctly rounded division. *)
Definition of_rational (q : Q) : spec_float :=
  SFdiv prec emax (of_Z (Qnum q)) (of_Z (Zpos (Qden q))).

(** [a / b] for two [int]s: the integers are divided exactly and the
    quotient is rounded once, as CPython does. *)
Definition truediv (a b : nat) : spec_float :=
  match a, b with
  | _, O => S754_nan
  | O, _ => S754_zero false
  | _, _ => SFdiv prec emax (S754_finite false (Pos.of_nat a) 0)
                            (S754_finite false (Pos.of_nat b) 0)
  end.

#[global] Instance arith : ScoreArith spec_float := {|
  of_Q := of_rational;
  fadd := SFadd prec emax;
  fmul := SFmul prec emax;
  fdiv := SFdiv prec emax;
  int_div := truediv;
  fltb := SFltb
|}.
End Binary64.

(** Exact rational arithmetic.  [Qdiv] by zero is never reached: the
    module divides by 2 and by the length of a name it has checked. *)
Module Exact.
Definition ltb (x y : Q) : bool := negb (Qle_bool y x).

#[global] Instance arith : ScoreArith Q := {|
  of_Q := fun q => q;
  fadd := Qplus;
  fmul := Qmult;
  fdiv := Qdiv;
  int_div := fun a b => ((Z.of_nat a # 1) / (Z.of_nat b # 1))%Q;
  fltb := ltb
|}.
End Exact.

(** ** Strings *)

Definition lower_ascii (c : ascii) : ascii :=
  let n := nat_of_ascii c in
  if (65 <=? n)%nat && (n <=? 90)%nat then ascii_of_nat (n + 32) else c.

(** [s.lower()] on ASCII text, where it maps [A]-[Z] to [a]-[z] and
    keeps every other character.  (On other text Python's [str.lower]
    follows Unicode and can change the length of a string.) *)
Fixpoint lower (s : string) : string :=
  match s with
  | EmptyString => EmptyString
  | String c s' => String (lower_ascii c) (lower s')
  end.

(** [sub in s] *)
Fixpoint contains (sub s : string) : bool :=
  String.prefix sub s ||
  match s with
  | EmptyString => false
  | String _ s' => contains sub s'
  end.

(** The class [\w] on ASCII text: letters, digits and the underscore. *)
Definition is_word_char (c : ascii) : bool :=
  let n := nat_of_ascii c in
  ((48 <=? n)%nat && (n <=? 57)%nat) ||
  ((65 <=? n)%nat && (n <=? 90)%nat) ||
  ((97 <=? n)%nat && (n <=? 122)%nat) ||
  (n =? 95)%nat.

Definition flush (cur : string) : list string :=
  match cur with
  | EmptyString => []
  | _ => [cur]
  end.

(** [re.findall(r"\w+", s)]: the maximal runs of word characters, left to
    right; [cur] is the run being read. *)
Fixpoint findall_words_from (cur s : string) : list string :=
  match s with
  | EmptyString => flush cur
  | String c s' =>
      if is_word_char c then findall_words_from (cur ++ String c EmptyString) s'
      else flush cur ++ findall_words_from EmptyString s'
  end.

Definition findall_words (s : string) : list string :=
  findall_words_from EmptyString s.

Definition newline : ascii := ascii_of_nat 10.

(** [s.split("\n")] *)
Fixpoint split_lines_from (cur s : string) : list string :=
  match s with
  | EmptyString => [cur]
  | String c s' =>
      if Ascii.eqb c newline then cur :: split_lines_from EmptyString s'
      else split_lines_from (cur ++ String c EmptyString) s'
  end.

Definition split_lines (s : string) : list string :=
  split_lines_from EmptyString s.

(** [x in xs] for a list or set of strings *)
Definition mem_string (x : string) (xs : list string) : bool :=
  existsb (String.eqb x) xs.

(** ** Data model *)

(** Modelled from the spec: [models.py] is not among the sources; the
    record has the six fields section 3 of the specification lists and
    [search.py] reads.  [docstring] is optional ([None] when absent). *)
Record CodeElement := {
  name : string;
  type : string;
  codebase : string;
  signature : string;
  docstring : option string;
  code : string
}.

(** Modelled from the spec: [CodeIndex.elements], the ordered sequence of
    elements; the position of an element is its row in the vector index. *)
Abbreviation CodeIndex := (list CodeElement).

(** Modelled from the spec: the four fields of a [SearchResult] that
    [search.py] writes. *)
Record SearchResult (F : Type) := {
  element : CodeElement;
  score : F;
  match_type : string;
  matched_terms : list string
}.
Arguments element {F} _.
Arguments score {F} _.
Arguments match_type {F} _.
Arguments matched_terms {F} _.
Arguments Build_SearchResult {F} _ _ _ _.

(** ** Keyword extraction and the lexical scorer *)

Definition stop_words : list string :=
  [ "the"; "a"; "an"; "and"; "or"; "but"; "in"; "on"; "at"; "to"; "for";
    "of"; "with"; "by"; "from"; "as"; "is"; "was"; "are"; "were"; "be";
    "how"; "do"; "does"; "i"; "you"; "use"; "using"; "create"; "make" ].

(** [CodeSearch._extract_keywords] *)
Definition _extract_keywords (query : string) : list string :=
  let words := findall_words (lower query) in
  List.filter (fun w => negb (mem_string w stop_words) && (2 <? String.length w)%nat) words.

(** [CodeSearch._extract_matched_terms] *)
Definition _extract_matched_terms (query text : string) : list string :=
  let keywords := _extract_keywords query in
  let text_lower := lower text in
  List.filter (fun kw => contains kw text_lower) keywords.

(** [if elem.docstring:] holds for a docstring that is neither [None] nor
    empty. *)
Definition truthy_docstring (elem : CodeElement) : option string :=
  match docstring elem with
  | Some d => if String.eqb d EmptyString then None else Some d
  | None => None
  end.

Section Scoring.
Context {F : Type} `{ScoreArith F}.

(** One [for keyword in keywords: if keyword in field: score += w] loop. *)
Definition add_matches (w : F) (field_lower : string) (keywords : list string) (score0 : F) : F :=
  fold_left (fun sc keyword => if contains keyword field_lower then fadd sc w else sc)
            keywords score0.

(** [CodeSearch._score_element_keywords] *)
Definition _score_element_keywords (elem : CodeElement) (keywords : list string) : F :=
  let score0 := of_Q 0 in
  let score1 := add_matches (of_Q 3) (lower (name elem)) keywords score0 in
  let score2 :=
    match truthy_docstring elem with
    | Some d => add_matches (of_Q 2) (lower d) keywords score1
    | None => score1
    end in
  let score3 := add_matches (of_Q (3 # 2)) (lower (signature elem)) keywords score2 in
  add_matches (of_Q (1 # 2)) (lower (code elem)) keywords score3.
End Scoring.

(** ** Sorting *)

Section Sorting.
Context {F : Type} `{ScoreArith F} {A : Type}.
Variable key : A -> F.

(** [x] stood before every element of [l] in the input: it moves right
    only past elements of strictly greater key. *)
Fixpoint insert_desc (x : A) (l : list A) : list A :=
  match l with
  | [] => [x]
  | y :: l' => if fltb (key x) (key y) then y :: insert_desc x l' else x :: l
  end.

(** [l.sort(key=key, reverse=True)] *)
Definition sort_desc (l : list A) : list A := fold_right insert_desc [] l.
End Sorting.

(** ** The search object *)

(** What numpy and scikit-learn contribute to a fitted index:
    [similarities q] is [cosine_similarity(vectorizer.transform([q]),
    tfidf_matrix)[0]], one similarity per indexed element, or [None] when
    the call raises; [argsort] is [np.argsort]. *)
Record VectorBackend (F : Type) := {
  similarities : string -> option (list F);
  argsort : list F -> list nat
}.
Arguments similarities {F} _ _.
Arguments argsort {F} _ _.

(** The invocations a call-counting stub would record. *)
Inductive Call :=
| CallSemantic (query : string) (top_k : nat)
| CallKeyword (query : string) (top_k : nat)
| CallScore (elem : CodeElement)
| CallCombine
| CallRank (query : string).

(** The attributes of a [CodeSearch] instance.  [vectorizer] is [None]
    until the TF-IDF index is built; [tfidf_matrix] lives inside the
    backend.  [calls] is not an attribute of the class: it is the trace of
    scorer invocations, kept to state which calls an operation makes. *)
Record CodeSearch (F : Type) := {
  index : CodeIndex;
  use_tfidf : bool;
  vectorizer : option (VectorBackend F);
  element_texts : list string;
  query_cache : gmap string (list (SearchResult F));
  calls : list Call
}.
Arguments index {F} _.
Arguments use_tfidf {F} _.
Arguments vectorizer {F} _.
Arguments element_texts {F} _.
Arguments query_cache {F} _.
Arguments calls {F} _.
Arguments Build_CodeSearch {F} _ _ _ _ _ _.

(** Methods run in the state monad over the search object. *)
Definition M (F A : Type) : Type := CodeSearch F -> A * CodeSearch F.

#[global] Instance M_ret {F} : MRet (M F) := fun A a self => (a, self).

#[global] Instance M_bind {F} : MBind (M F) := fun A B k m self =>
  let (a, self') := m self in k a self'.

Definition get_self {F} : M F (CodeSearch F) := fun self => (self, self).

Definition log_calls {F} (cs : list Call) (self : CodeSearch F) : CodeSearch F :=
  {| index := index self; use_tfidf := use_tfidf self;
     vectorizer := vectorizer self; element_texts := element_texts self;
     query_cache := query_cache self; calls := calls self ++ cs |}.

Definition record_call {F} (c : Call) : M F unit := fun self => (tt, log_calls [c] self).

(** [self.query_cache[key] = results] *)
Definition set_cache {F} (cache : gmap string (list (SearchResult F))) (self : CodeSearch F)
    : CodeSearch F :=
  {| index := index self; use_tfidf := use_tfidf self;
     vectorizer := vectorizer self; element_texts := element_texts self;
     query_cache := cache; calls := calls self |}.

Definition cache_store {F} (key : string) (results : list (SearchResult F)) : M F unit :=
  fun self => (tt, set_cache (<[key := results]> (query_cache self)) self).

(** A [for] loop threading the loop-carried local [acc]. *)
Fixpoint for_each {F A B} (l : list A) (body : B -> A -> M F B) (acc : B) : M F B :=
  match l with
  | [] => mret acc
  | x :: l' => acc' ← body acc x; for_each l' body acc'
  end.

Section Methods.
Context {F : Type} `{ScoreArith F}.

Definition score_call (elem : CodeElement) (keywords : list string) : M F F :=
  record_call (CallScore elem);;
  mret (_score_element_keywords elem keywords).

(** [CodeSearch.keyword_search] *)
Definition keyword_search (query : string) (top_k : nat) : M F (list (SearchResult F)) :=
  record_call (CallKeyword query top_k);;
  let keywords := _extract_keywords query in
  match keywords with
  | [] => mret []
  | _ :: _ =>
      self ← get_self;
      scored_elements ←
        for_each (index self)
          (fun scored elem =>
             score ← score_call elem keywords;
             mret (if fltb (of_Q 0) score
                  then scored ++ [(elem, score, keywords)]
                  else scored))
          [];
      let sorted := sort_desc (fun x => snd (fst x)) scored_elements in
      mret (map (fun '(elem, score, matched_terms) =>
                  {| element := elem; score := score;
                     match_type := "keyword"; matched_terms := matched_terms |})
               (firstn top_k sorted))
  end.
(** The [try] block of [semantic_search]: [None] stands for a raised
    exception (a failing vector query, an index out of range). *)
Fixpoint semantic_loop (self : CodeSearch F) (query : string) (sims : list F)
    (top_indices : list nat) (results : list (SearchResult F))
    : option (list (SearchResult F)) :=
  match top_indices with
  | [] => Some results
  | idx :: rest =>
      sim ← sims !! idx;
      if fltb (of_Q 0) sim then
        elem ← index self !! idx;
        text ← element_texts self !! idx;
        semantic_loop self query sims rest
          (results ++ [{| element := elem; score := sim;
                          match_type := "semantic";
                          matched_terms := _extract_matched_terms query text |}])
      else semantic_loop self query sims rest results
  end.

Definition semantic_try (vb : VectorBackend F) (self : CodeSearch F)
    (query : string) (top_k : nat) : option (list (SearchResult F)) :=
  sims ← similarities vb query;
  let top_indices := firstn top_k (rev (argsort vb sims)) in
  semantic_loop self query sims top_indices [].

(** [CodeSearch.semantic_search] *)
Definition semantic_search (query : string) (top_k : nat) : M F (list (SearchResult F)) :=
  record_call (CallSemantic query top_k);;
  self ← get_self;
  if negb (use_tfidf self) then keyword_search query top_k
  else
    match vectorizer self with
    | None => keyword_search query top_k
    | Some vb =>
        match semantic_try vb self query top_k with
        | Some results => mret results
        | None => keyword_search query top_k
        end
    end.

(** *** Combiner *)

Definition result_key (result : SearchResult F) : string :=
  codebase (element result) ++ ":" ++ name (element result).

(** A [dict] keeps its keys in order of first insertion; assigning to a
    key that is present replaces the value where it stands. *)
Fixpoint dict_get {V} (k : string) (d : list (string * V)) : option V :=
  match d with
  | [] => None
  | (k', v) :: d' => if String.eqb k k' then Some v else dict_get k d'
  end.

Fixpoint dict_set {V} (k : string) (v : V) (d : list (string * V)) : list (string * V) :=
  match d with
  | [] => [(k, v)]
  | (k', v') :: d' =>
      if String.eqb k k' then (k, v) :: d' else (k', v') :: dict_set k v d'
  end.

(** [list(set(xs))]: the distinct members of [xs].  CPython lists them in
    hash order; the embedding lists them by first occurrence, and nothing
    below depends on that order. *)
Definition list_of_set (xs : list string) : list string := nodup string_dec xs.

(** The update of [existing] when [result] has the same key. *)
Definition merge (existing result : SearchResult F) : SearchResult F :=
  {| element := element existing;
     score := fmul (fdiv (fadd (score existing) (score result)) (of_Q 2)) (of_Q (3 # 2));
     match_type := "hybrid";
     matched_terms := list_of_set (matched_terms existing ++ matched_terms result) |}.

Definition seed_step (d : list (string * SearchResult F)) (result : SearchResult F) :=
  dict_set (result_key result) result d.

Definition keyword_step (d : list (string * SearchResult F)) (result : SearchResult F) :=
  let key := result_key result in
  match dict_get key d with
  | Some existing => dict_set key (merge existing result) d
  | None => dict_set key result d
  end.

(** [CodeSearch._combine_results] *)
Definition _combine_results (semantic keyword : list (SearchResult F)) : list (SearchResult F) :=
  let combined_dict := fold_left seed_step semantic [] in
  let combined_dict := fold_left keyword_step keyword combined_dict in
  map snd combined_dict.

(** *** Re-ranker *)

(** The boost [rank_results] accumulates for one element. *)
Definition boost_of (query_lower : string) (elem : CodeElement) : F :=
  let boost := of_Q 1 in
  let boost :=
    if String.eqb query_lower (lower (name elem)) then fmul boost (of_Q 2)
    else if contains query_lower (lower (name elem)) then fmul boost (of_Q (3 # 2))
    else boost in
  let boost :=
    match truthy_docstring elem with
    | Some d => if contains query_lower (lower d) then fmul boost (of_Q (13 # 10)) else boost
    | None => boost
    end in
  let boost :=
    if mem_string (type elem) ["class"; "function"] then fmul boost (of_Q (12 # 10))
    else boost in
  let boost :=
    if mem_string (codebase elem) ["dspy"; "dspy_cli"] then fmul boost (of_Q (11 # 10))
    else boost in
  boost.

(** [result.score *= boost] *)
Definition boosted (query_lower : string) (result : SearchResult F) : SearchResult F :=
  {| element := element result;
     score := fmul (score result) (boost_of query_lower (element result));
     match_type := match_type result;
     matched_terms := matched_terms result |}.

(** [CodeSearch.rank_results] *)
Definition rank_results (results : list (SearchResult F)) (query : string)
    : list (SearchResult F) :=
  let query_lower := lower query in
  sort_desc score (map (boosted query_lower) results).

(** *** Hybrid search and the cache *)

(** [f"hybrid:{query}:{top_k}"] *)
Definition cache_key (query : string) (top_k : nat) : string :=
  "hybrid:" ++ query ++ ":" ++ pretty top_k.

(** [CodeSearch.hybrid_search] *)
Definition hybrid_search (query : string) (top_k : nat) : M F (list (SearchResult F)) :=
  self ← get_self;
  match query_cache self !! cache_key query top_k with
  | Some cached => mret cached
  | None =>
      results ←
        (if use_tfidf self then
           semantic_results ← semantic_search query (top_k * 2);
           keyword_results ← keyword_search query (top_k * 2);
           record_call CallCombine;;
           let combined := _combine_results semantic_results keyword_results in
           record_call (CallRank query);;
           mret (firstn top_k (rank_results combined query))
         else keyword_search query top_k);
      cache_store (cache_key query top_k) results;;
      mret results
  end.

(** [CodeSearch.clear_cache] *)
Definition clear_cache : M F unit := fun self => (tt, set_cache ∅ self).

(** *** Lookup by name *)

(** The loop of [search_by_name]; [None] is the [ZeroDivisionError] of
    [len(name) / len(elem.name)] at an element whose name is empty. *)
Fixpoint search_by_name_loop (name_q : string) (exact : bool) (elems : list CodeElement)
    (results : list (SearchResult F)) : option (list (SearchResult F)) :=
  match elems with
  | [] => Some results
  | elem :: rest =>
      let name_lower := lower name_q in
      let elem_name_lower := lower (name elem) in
      if exact then
        if String.eqb elem_name_lower name_lower then
          search_by_name_loop name_q exact rest
            (results ++ [{| element := elem; score := of_Q 1;
                            match_type := "exact"; matched_terms := [name_q] |}])
        else search_by_name_loop name_q exact rest results
      else if contains name_lower elem_name_lower then
        if (String.length (name elem) =? 0)%nat then None
        else
          let score := int_div (String.length name_q) (String.length (name elem)) in
          search_by_name_loop name_q exact rest
            (results ++ [{| element := elem; score := score;
                            match_type := "name"; matched_terms := [name_q] |}])
      else search_by_name_loop name_q exact rest results
  end.

(** [CodeSearch.search_by_name] *)
Definition search_by_name (self : CodeSearch F) (name_q : string) (exact : bool)
    : option (list (SearchResult F)) :=
  results ← search_by_name_loop name_q exact (index self) [];
  Some (sort_desc score results).

(** *** Construction *)

(** The document [_build_tfidf_index] synthesises for one element. *)
Definition element_text (elem : CodeElement) : string :=
  let text_parts := [name elem] in
  let text_parts :=
    match truthy_docstring elem with
    | Some d => text_parts ++ [d]
    | None => text_parts
    end in
  let text_parts := text_parts ++ [signature elem] in
  let code_lines := firstn 5 (split_lines (code elem)) in
  let text_parts := text_parts ++ code_lines in
  String.concat " " text_parts.

(** A [TfidfVectorizer] that was constructed but never fitted: every
    vector query raises. *)
Definition unfitted_vectorizer : VectorBackend F :=
  {| similarities := fun _ => None; argsort := fun _ => [] |}.

(** [CodeSearch.__init__] with [_build_tfidf_index].  [sklearn] is
    [None] when scikit-learn cannot be imported; otherwise it fits the
    vectoriser on the corpus, [None] standing for a raised exception, in
    which case the unfitted vectoriser stays in place and TF-IDF is
    switched off. *)
Definition new_CodeSearch (sklearn : option (list string -> option (VectorBackend F)))
    (idx : CodeIndex) (use_tfidf_arg : bool) : CodeSearch F :=
  let unavailable vectorizer texts :=
    {| index := idx; use_tfidf := false; vectorizer := vectorizer;
       element_texts := texts; query_cache := ∅; calls := [] |} in
  match sklearn with
  | Some fit_transform =>
      if use_tfidf_arg then
        let texts := map element_text idx in
        match fit_transform texts with
        | Some vb =>
            {| index := idx; use_tfidf := true; vectorizer := Some vb;
               element_texts := texts; query_cache := ∅; calls := [] |}
        | None => unavailable (Some unfitted_vectorizer) texts
        end
      else unavailable None []
  | None => unavailable None []
  end.
End Methods.

(** ** Auxiliary notions used to state the theorems *)

Section Candidates.
Context {F : Type} `{ScoreArith F}.

(** The result [keyword_search] builds for [elem]. *)
Definition keyword_result (keywords : list string) (elem : CodeElement) : SearchResult F :=
  {| element := elem; score := _score_element_keywords elem keywords;
     match_type := "keyword"; matched_terms := keywords |}.

(** The elements of positive lexical score, in index order. *)
Definition keyword_candidates (idx : CodeIndex) (keywords : list string)
    : list (SearchResult F) :=
  List.filter (fun r => fltb (of_Q 0) (score r)) (map (keyword_result keywords) idx).

(** The tuples [keyword_search] collects in [scored_elements], and the
    result built from one. *)
Definition scored_tuple (keywords : list string) (elem : CodeElement)
    : CodeElement * F * list string :=
  (elem, _score_element_keywords elem keywords, keywords).

Definition tuple_result (t : CodeElement * F * list string) : SearchResult F :=
  let '(elem, score, matched_terms) := t in
  {| element := elem; score := score; match_type := "keyword";
     matched_terms := matched_terms |}.

(** The result the loop of [semantic_search] appends for row [idx]. *)
Definition semantic_row (self : CodeSearch F) (query : string) (sims : list F)
    (idx : nat) (r : SearchResult F) : Prop :=
  index self !! idx = Some (element r) /\
  sims !! idx = Some (score r) /\
  fltb (of_Q 0) (score r) = true /\
  match_type r = "semantic" /\
  exists text, element_texts self !! idx = Some text /\
               matched_terms r = _extract_matched_terms query text.

(** What [hybrid_search] computes when the cache has no entry. *)
Definition hybrid_fresh (query : string) (top_k : nat) : M F (list (SearchResult F)) :=
  self ← get_self;
  if use_tfidf self then
    semantic_results ← semantic_search query (top_k * 2);
    keyword_results ← keyword_search query (top_k * 2);
    record_call CallCombine;;
    let combined := _combine_results semantic_results keyword_results in
    record_call (CallRank query);;
    mret (firstn top_k (rank_results combined query))
  else keyword_search query top_k.
End Candidates.

(** The number of entries of the keyword list that are substrings of a
    field, a repeated keyword counted as often as it is listed. *)
Definition count_matches (field_lower : string) (keywords : list string) : nat :=
  length (List.filter (fun kw => contains kw field_lower) keywords).

(** [w] added [n] times, one float addition after the other. *)
Definition add_times {F} `{ScoreArith F} (w : F) (n : nat) (score0 : F) : F :=
  Nat.iter n (fun sc => fadd sc w) score0.

Definition docstring_matches (elem : CodeElement) (keywords : list string) : nat :=
  match truthy_docstring elem with
  | Some d => count_matches (lower d) keywords
  | None => 0
  end.

(** The four field weights times the match counts, in exact arithmetic. *)
Definition weighted_matches (elem : CodeElement) (keywords : list string) : Q :=
  3 * inject_Z (Z.of_nat (count_matches (lower (name elem)) keywords))
  + 2 * inject_Z (Z.of_nat (docstring_matches elem keywords))
  + (3 # 2) * inject_Z (Z.of_nat (count_matches (lower (signature elem)) keywords))
  + (1 # 2) * inject_Z (Z.of_nat (count_matches (lower (code elem)) keywords)).

(** The reading under which a keyword listed several times counts once:
    the weighted count over the distinct keywords. *)
Definition weighted_distinct_matches (elem : CodeElement) (keywords : list string) : Q :=
  weighted_matches elem (nodup string_dec keywords).

(** A stable [argsort]: indices in ascending order of value, equal values
    in index order.  numpy's default sort is an insertion sort of this
    kind on arrays of at most 16 entries; on longer arrays the order of
    equal values is not specified. *)
Definition value_ltb {F} `{ScoreArith F} (v : list F) (j i : nat) : bool :=
  match v !! j, v !! i with
  | Some a, Some b => fltb a b
  | _, _ => false
  end.

Fixpoint insert_asc {F} `{ScoreArith F} (v : list F) (i : nat) (l : list nat) : list nat :=
  match l with
  | [] => [i]
  | j :: l' => if value_ltb v j i then j :: insert_asc v i l' else i :: l
  end.

Definition stable_argsort {F} `{ScoreArith F} (v : list F) : list nat :=
  fold_right (insert_asc v) [] (seq 0 (length v)).

(** The test [search_by_name] applies to an element, and the result it
    appends for an element that passes. *)
Definition name_match (name_q : string) (exact : bool) (elem : CodeElement) : bool :=
  if exact then String.eqb (lower (name elem)) (lower name_q)
  else contains (lower name_q) (lower (name elem)).

Definition name_hit {F} `{ScoreArith F} (name_q : string) (exact : bool)
    (elem : CodeElement) : SearchResult F :=
  if exact then
    {| element := elem; score := of_Q 1; match_type := "exact"; matched_terms := [name_q] |}
  else
    {| element := elem;
       score := int_div (String.length name_q) (String.length (name elem));
       match_type := "name"; matched_terms := [name_q] |}.

(** Row [idx] has a similarity above zero. *)
Definition positive_row {F} `{ScoreArith F} (sims : list F) (idx : nat) : bool :=
  match sims !! idx with
  | Some sim => fltb (of_Q 0) sim
  | None => false
  end.

(** What numpy promises of [argsort] on the vector [v]: the indices of
    [v], each once, no index before one of smaller value. *)
Definition argsort_ascending {F} `{ScoreArith F} (vb : VectorBackend F) (v : list F) : Prop :=
  Permutation (argsort vb v) (seq 0 (length v)) /\
  StronglySorted (fun i j => value_ltb v j i = false) (argsort vb v).

(** ** Order on scores *)

(** What the theorems on sorted results need of the arithmetic.
    [is_number x] is [not math.isnan(x)].  [<] is asymmetric; it is
    transitive through every number; a comparison that holds involves no
    NaN; the quotient of two [int]s is a number. *)
Class ScoreOrder (F : Type) `{ScoreArith F} := {
  is_number : F -> bool;
  fltb_asym : forall x y, fltb x y = true -> fltb y x = false;
  fltb_negtrans : forall x y z,
    is_number y = true -> fltb x y = false -> fltb y z = false -> fltb x z = false;
  fltb_number : forall x y, fltb x y = true -> is_number x = true /\ is_number y = true;
  int_div_number : forall a b, b <> O -> is_number (int_div a b) = true
}.

(** *** Binary64 values by kind and sign *)

Module B64.
(** Not NaN. *)
Definition number (x : spec_float) : bool :=
  match x with
  | S754_nan => false
  | _ => true
  end.

(** A number that is not below zero: a zero, a positive finite number
    or plus infinity. *)
Definition nonneg (x : spec_float) : bool :=
  match x with
  | S754_nan => false
  | S754_zero _ => true
  | S754_infinity s | S754_finite s _ _ => negb s
  end.

(** A positive finite number. *)
Definition ordinary (c : spec_float) : bool :=
  match c with
  | S754_finite false _ _ => true
  | _ => false
  end.

(** The result of a rounding carries the sign [s] and is not NaN. *)
Definition signed (s : bool) (r : spec_float) : Prop :=
  match r with
  | S754_nan => False
  | S754_zero s' | S754_infinity s' | S754_finite s' _ _ => s' = s
  end.

(** The place of a number in the order: kind, then exponent, then
    mantissa. *)
Definition rank (x : spec_float) : Z * Z * Z :=
  match x with
  | S754_nan => (0, 0, 0)
  | S754_infinity true => (-2, 0, 0)
  | S754_finite true m e => (-1, - e, - Zpos m)
  | S754_zero _ => (0, 0, 0)
  | S754_finite false m e => (1, e, Zpos m)
  | S754_infinity false => (2, 0, 0)
  end%Z.

Definition lex_lt (a b : Z * Z * Z) : Prop :=
  let '(a1, a2, a3) := a in
  let '(b1, b2, b3) := b in
  (a1 < b1 \/ (a1 = b1 /\ (a2 < b2 \/ (a2 = b2 /\ a3 < b3))))%Z.
End B64.

(** [a] stands somewhere before [b] in [l]. *)
Definition precedes {A} (a b : A) (l : list A) : Prop :=
  exists l1 l2 l3, l = l1 ++ a :: l2 ++ b :: l3.

(** [a] is not below [b] by key: the order [reverse=True] asks for. *)
Definition desc {F} `{ScoreArith F} {A} (key : A -> F) (a b : A) : Prop :=
  fltb (key a) (key b) = false.

(** [y]'s key compares equal to [v]: neither is less than the other. *)
Definition tied {F} `{ScoreArith F} {A} (key : A -> F) (v : F) (y : A) : bool :=
  negb (fltb v (key y)) && negb (fltb (key y) v).

(** ** Test data *)

Definition elem_parse_config : CodeElement :=
  {| name := "parse_config"; type := "function"; codebase := "core";
     signature := "def parse_config(path)";
     docstring := Some "Parse a configuration file";
     code := "def parse_config(path):" |}.

Definition elem_ConfigError : CodeElement :=
  {| name := "ConfigError"; type := "class"; codebase := "core";
     signature := "class ConfigError(Exception)"; docstring := None;
     code := "class ConfigError(Exception): pass" |}.

(** A search object without vector backend over the two elements of the
    specification's end-to-end example. *)
Definition lexical_search {F} : CodeSearch F :=
  {| index := [elem_ConfigError; elem_parse_config]; use_tfidf := false;
     vectorizer := None; element_texts := []; query_cache := ∅; calls := [] |}.

(** The specification's combiner example in binary64: one element found
    by the semantic strategy with score 0.4 and by the keyword strategy
    with score 0.6. *)
Definition semantic_04 : SearchResult spec_float :=
  {| element := elem_parse_config; score := of_Q (4 # 10);
     match_type := "semantic"; matched_terms := ["parse"] |}.

Definition keyword_06 : SearchResult spec_float :=
  {| element := elem_parse_config; score := of_Q (6 # 10);
     match_type := "keyword"; matched_terms := ["parse"; "configuration"] |}.

(** An element whose only text is its name. *)
Definition elem_parse : CodeElement :=
  {| name := "parse"; type := "function"; codebase := "core";
     signature := ""; docstring := None; code := "" |}.

(** A fitted backend that gives both elements of the example index the
    similarity 0.5, whatever the query, and sorts stably. *)
Definition tie_backend {F} `{ScoreArith F} : VectorBackend F :=
  {| similarities := fun _ => Some [of_Q (1 # 2); of_Q (1 # 2)];
     argsort := stable_argsort |}.

(** The search object built over the example index with that backend. *)
Definition tie_search {F} `{ScoreArith F} : CodeSearch F :=
  new_CodeSearch (Some (fun _ => Some tie_backend))
                 [elem_ConfigError; elem_parse_config] true.

(** An index holding an element without a name, which the data model
    rules out. *)
Definition nameless_search {F} : CodeSearch F :=
  {| index := [{| name := ""; type := "function"; codebase := "core";
                  signature := ""; docstring := None; code := "" |}];
     use_tfidf := false; vectorizer := None; element_texts := [];
     query_cache := ∅; calls := [] |}.

(** Two methods, one of them with the query ["config"] in its name, and
    results for them with scores 10.0 and 6.0. *)
Definition elem_load : CodeElement :=
  {| name := "load"; type := "method"; codebase := "core";
     signature := "def load(self)"; docstring := None; code := "def load(self):" |}.

Definition elem_config_path : CodeElement :=
  {| name := "config_path"; type := "method"; codebase := "core";
     signature := "def config_path(self)"; docstring := None;
     code := "def config_path(self):" |}.

Definition result_load {F} `{ScoreArith F} : SearchResult F :=
  {| element := elem_load; score := of_Q 10; match_type := "keyword";
     matched_terms := ["config"] |}.

Definition result_config_path {F} `{ScoreArith F} : SearchResult F :=
  {| element := elem_config_path; score := of_Q 6; match_type := "keyword";
     matched_terms := ["config"] |}.

(** A result for the first of the two methods with score 1.0. *)
Definition result_load_low {F} `{ScoreArith F} : SearchResult F :=
  {| element := elem_load; score := of_Q 1; match_type := "keyword";
     matched_terms := ["config"] |}.

(** An index of four elements: for the query ["config"] the first has
    lexical score 0, the second and the last 5.0 each and the third 7.0. *)
Definition ranked_search {F} : CodeSearch F :=
  {| index := [elem_load; elem_ConfigError; elem_parse_config; elem_config_path];
     use_tfidf := false; vectorizer := None; element_texts := [];
     query_cache := ∅; calls := [] |}.

(** A fitted backend over three elements that gives them the
    similarities 0.25, 0.0 and 0.5, whatever the query, and sorts
    stably. *)
Definition three_rows : list spec_float := [of_Q (1 # 4); of_Q 0; of_Q (1 # 2)].

Definition three_rows_backend : VectorBackend spec_float :=
  {| similarities := fun _ => Some three_rows; argsort := stable_argsort |}.

Definition three_rows_search : CodeSearch spec_float :=
  new_CodeSearch (Some (fun _ => Some three_rows_backend))
                 [elem_ConfigError; elem_load; elem_config_path] true.

(** ** Lookups by type and by codebase *)

(** [if not query:] fails for a query that is neither [None] nor empty. *)
Definition truthy_query (query : option string) : option string :=
  match query with
  | Some q => if String.eqb q EmptyString then None else Some q
  | None => None
  end.

Section Filtered.
Context {F : Type} `{ScoreArith F}.

(** [CodeSearch.search_by_type] *)
Definition search_by_type (element_type : string) (query : option string) (top_k : nat)
    : M F (list (SearchResult F)) :=
  self ← get_self;
  let typed_elements :=
    List.filter (fun elem => String.eqb (type elem) element_type) (index self) in
  match truthy_query query with
  | None =>
      mret (map (fun elem => {| element := elem; score := of_Q 1;
                                match_type := "type"; matched_terms := [] |})
                (firstn top_k typed_elements))
  | Some query =>
      let keywords := _extract_keywords query in
      scored ←
        for_each typed_elements
          (fun scored elem =>
             score ← score_call elem keywords;
             mret (if fltb (of_Q 0) score then scored ++ [(elem, score)] else scored))
          [];
      let sorted := sort_desc snd scored in
      mret (map (fun '(elem, score) =>
                   {| element := elem; score := score;
                      match_type := "type"; matched_terms := keywords |})
                (firstn top_k sorted))
  end.

(** [CodeSearch.search_by_codebase] *)
Definition search_by_codebase (codebase_q : string) (query : option string) (top_k : nat)
    : M F (list (SearchResult F)) :=
  self ← get_self;
  let codebase_elements :=
    List.filter (fun elem => String.eqb (codebase elem) codebase_q) (index self) in
  match truthy_query query with
  | None =>
      mret (map (fun elem => {| element := elem; score := of_Q 1;
                                match_type := "codebase"; matched_terms := [] |})
                (firstn top_k codebase_elements))
  | Some query =>
      let keywords := _extract_keywords query in
      scored ←
        for_each codebase_elements
          (fun scored elem =>
             score ← score_call elem keywords;
             mret (if fltb (of_Q 0) score then scored ++ [(elem, score)] else scored))
          [];
      let sorted := sort_desc snd scored in
      mret (map (fun '(elem, score) =>
                   {| element := elem; score := score;
                      match_type := "codebase"; matched_terms := keywords |})
                (firstn top_k sorted))
  end.

(** *** Views used to state what the lookups return *)

(** A result of [keyword_search] with its provenance tag replaced. *)
Definition retag (tag : string) (r : SearchResult F) : SearchResult F :=
  {| element := element r; score := score r; match_type := tag;
     matched_terms := matched_terms r |}.

(** The unscored listing of the first [top_k] elements. *)
Definition listing (tag : string) (elems : list CodeElement) (top_k : nat)
    : list (SearchResult F) :=
  map (fun elem => {| element := elem; score := of_Q 1; match_type := tag;
                      matched_terms := [] |})
      (firstn top_k elems).

(** The search object restricted to the elements that pass [keep]. *)
Definition restrict (keep : CodeElement -> bool) (self : CodeSearch F) : CodeSearch F :=
  {| index := List.filter keep (index self); use_tfidf := use_tfidf self;
     vectorizer := vectorizer self; element_texts := element_texts self;
     query_cache := query_cache self; calls := calls self |}.
End Filtered.

(** ** Notions for the cache *)

(** Two search objects agree on everything a query reads but the cache
    and the trace. *)
Definition same_config {F} (s1 s2 : CodeSearch F) : Prop :=
  index s1 = index s2 /\ use_tfidf s1 = use_tfidf s2 /\
  vectorizer s1 = vectorizer s2 /\ element_texts s1 = element_texts s2.

(** Every cache entry under a key of [hybrid_search] holds what the
    search computes afresh for that query and [top_k]. *)
Definition cache_coherent {F} `{ScoreArith F} (self : CodeSearch F) : Prop :=
  forall query top_k cached,
    query_cache self !! cache_key query top_k = Some cached ->
    cached = fst (hybrid_fresh query top_k self).

(** ** Notions for the combiner *)

(** The dictionary of the combiner: keys pairwise distinct, every result
    filed under its own key. *)
Definition dict_wf {F} (d : list (string * SearchResult F)) : Prop :=
  List.NoDup (map fst d) /\ List.Forall (fun p => result_key (snd p) = fst p) d.

(** ** Notions for the re-ranker *)

(** The boost of an element that earns all four factors, multiplied in
    the order the code multiplies them. *)
Definition max_boost {F} `{ScoreArith F} : F :=
  fmul (fmul (fmul (fmul (of_Q 1) (of_Q 2)) (of_Q (13 # 10))) (of_Q (12 # 10)))
       (of_Q (11 # 10)).

(** A class of the [dspy] codebase whose name is the query ["predict"]
    and whose docstring mentions it. *)
Definition elem_Predict : CodeElement :=
  {| name := "Predict"; type := "class"; codebase := "dspy";
     signature := "class Predict(Module)";
     docstring := Some "Predict an output from the inputs";
     code := "class Predict(Module):" |}.

(** ** Notions for keywords *)

(** Every character of [s] passes [p]. *)
Fixpoint string_forallb (p : ascii -> bool) (s : string) : bool :=
  match s with
  | EmptyString => true
  | String c s' => p c && string_forallb p s'
  end.

(** Every character of [s] is an ASCII character. *)
Definition ascii_only (s : string) : bool :=
  string_forallb (fun c => (nat_of_ascii c <? 128)%nat) s.

(** The keyword is a substring of one of the four lowercased fields the
    lexical scorer reads. *)
Definition keyword_occurs (elem : CodeElement) (kw : string) : bool :=
  contains kw (lower (name elem)) ||
  match truthy_docstring elem with
  | Some d => contains kw (lower d)
  | None => false
  end ||
  contains kw (lower (signature elem)) ||
  contains kw (lower (code elem)).
(** * Theorems *)

(** ** The exact instance is an ordered arithmetic *)

Lemma Exact_ltb_lt (x y : Q) : Exact.ltb x y = true <-> (x < y)%Q.
Proof.
  unfold Exact.ltb. rewrite negb_true_iff.
  split.
  - intros Hb. apply Qnot_le_lt. intros Hle.
    apply Qle_bool_iff in Hle. congruence.
  - intros Hlt. destruct (Qle_bool y x) eqn:E; [|reflexivity].
    apply Qle_bool_iff in E. exfalso. exact (Qlt_not_le _ _ Hlt E).
Qed.

Lemma Exact_ltb_ge (x y : Q) : Exact.ltb x y = false <-> (y <= x)%Q.
Proof.
  unfold Exact.ltb. rewrite negb_false_iff. apply Qle_bool_iff.
Qed.

Lemma Exact_ltb_asym (x y : Q) : Exact.ltb x y = true -> Exact.ltb y x = false.
Proof.
  intros Hxy. apply Exact_ltb_lt in Hxy. apply Exact_ltb_ge. now apply Qlt_le_weak.
Qed.

Lemma Exact_ltb_negtrans (x y z : Q) :
  Exact.ltb x y = false -> Exact.ltb y z = false -> Exact.ltb x z = false.
Proof.
  intros Hxy Hyz. apply Exact_ltb_ge in Hxy, Hyz. apply Exact_ltb_ge.
  now apply Qle_trans with y.
Qed.

#[global] Instance Exact_order : ScoreOrder Q := {|
  is_number := fun _ => true;
  fltb_asym := Exact_ltb_asym;
  fltb_negtrans := fun x y z _ => Exact_ltb_negtrans x y z;
  fltb_number := fun _ _ _ => conj eq_refl eq_refl;
  int_div_number := fun _ _ _ => eq_refl
|}.

(** ** Binary64 is an ordered arithmetic *)

(** [<] on binary64 is the lexicographic order of the ranks of two
    numbers, and false as soon as one side is NaN. *)
Lemma SFltb_rank x y :
  SFltb x y = true <->
  B64.number x = true /\ B64.number y = true /\ B64.lex_lt (B64.rank x) (B64.rank y).
Proof.
  unfold SFltb.
  destruct x as [sx|sx| |sx mx ex], y as [sy|sy| |sy my ey]; simpl;
    try destruct sx; try destruct sy; simpl;
    try (split; [discriminate | intros (? & ? & ?); (discriminate || lia)]);
    try (split; [intros _; repeat split; lia | reflexivity]).
  - change (Pos.compare_cont Eq mx my) with (Pos.compare mx my).
    destruct (Z.compare_spec ex ey), (Pos.compare_spec mx my); simpl;
    (split; [discriminate || (intros _; repeat split; lia)
            | intros (_ & _ & ?); (reflexivity || lia)]).
  - change (Pos.compare_cont Eq mx my) with (Pos.compare mx my).
    destruct (Z.compare_spec ex ey), (Pos.compare_spec mx my); simpl;
    (split; [discriminate || (intros _; repeat split; lia)
            | intros (_ & _ & ?); (reflexivity || lia)]).
Qed.

Lemma lex_lt_asym a b : B64.lex_lt a b -> ~ B64.lex_lt b a.
Proof. destruct a as [[a1 a2] a3], b as [[b1 b2] b3]. simpl. lia. Qed.

Lemma lex_lt_negtrans a b c : ~ B64.lex_lt a b -> ~ B64.lex_lt b c -> ~ B64.lex_lt a c.
Proof.
  destruct a as [[a1 a2] a3], b as [[b1 b2] b3], c as [[c1 c2] c3]. simpl. lia.
Qed.

Lemma SFltb_false x y :
  B64.number x = true -> B64.number y = true -> SFltb x y = false ->
  ~ B64.lex_lt (B64.rank x) (B64.rank y).
Proof.
  intros Hx Hy Hf Hl. assert (SFltb x y = true) by (apply SFltb_rank; auto). congruence.
Qed.

Lemma SFltb_asym x y : SFltb x y = true -> SFltb y x = false.
Proof.
  intros Hxy. apply SFltb_rank in Hxy as (Hx & Hy & Hl).
  destruct (SFltb y x) eqn:E; [|reflexivity].
  apply SFltb_rank in E as (_ & _ & Hl'). now apply lex_lt_asym in Hl.
Qed.

Lemma SFltb_nan_r x : SFltb x S754_nan = false.
Proof. now destruct x. Qed.

(** Through NaN the order is not transitive ([1 < NaN] and [NaN < 2] are
    both false, [1 < 2] is true); through a number it is. *)
Lemma SFltb_negtrans x y z :
  B64.number y = true -> SFltb x y = false -> SFltb y z = false -> SFltb x z = false.
Proof.
  intros Hy Hxy Hyz.
  destruct (B64.number x) eqn:Hx; [|destruct x; try discriminate; reflexivity].
  destruct (B64.number z) eqn:Hz; [|destruct z; try discriminate; apply SFltb_nan_r].
  destruct (SFltb x z) eqn:E; [|reflexivity].
  apply SFltb_rank in E as (_ & _ & Hl).
  exfalso. revert Hl. apply lex_lt_negtrans with (B64.rank y); now apply SFltb_false.
Qed.

Lemma SFltb_number x y :
  SFltb x y = true -> B64.number x = true /\ B64.number y = true.
Proof. intros Hxy. apply SFltb_rank in Hxy. tauto. Qed.

(** *** Rounding keeps the sign and never gives NaN *)

Lemma shr_1_nonneg mrs : (0 <= shr_m mrs)%Z -> (0 <= shr_m (shr_1 mrs))%Z.
Proof.
  destruct mrs as [m r s]. simpl. destruct m as [|[p|p|]|[p|p|]]; simpl; lia.
Qed.

Lemma iter_pos_inv {A} (P : A -> Prop) (f : A -> A) :
  (forall x, P x -> P (f x)) -> forall p x, P x -> P (SpecFloat.iter_pos f p x).
Proof.
  intros Hf. induction p as [p IH|p IH|]; intros x Hx; simpl; auto.
Qed.

Lemma shr_fexp_nonneg m e l :
  (0 <= m)%Z -> (0 <= shr_m (fst (shr_fexp Binary64.prec Binary64.emax m e l)))%Z.
Proof.
  intros Hm. unfold shr_fexp, shr.
  assert (H0 : (0 <= shr_m (shr_record_of_loc m l))%Z).
  { destruct l as [|[]]; exact Hm. }
  destruct (fexp Binary64.prec Binary64.emax (Zdigits2 m + e) - e)%Z; simpl; try exact H0.
  apply (iter_pos_inv (fun mrs => (0 <= shr_m mrs)%Z)); [apply shr_1_nonneg | exact H0].
Qed.

Lemma round_nearest_even_nonneg m l : (0 <= m)%Z -> (0 <= round_nearest_even m l)%Z.
Proof.
  intros Hm. unfold round_nearest_even. destruct l as [|[]]; try lia.
  destruct (Z.even m); lia.
Qed.

Lemma binary_round_aux_signed sx mx ex lx :
  (0 <= mx)%Z -> B64.signed sx (binary_round_aux Binary64.prec Binary64.emax sx mx ex lx).
Proof.
  intros Hm. unfold binary_round_aux.
  pose proof (shr_fexp_nonneg mx ex lx Hm) as H1.
  destruct (shr_fexp Binary64.prec Binary64.emax mx ex lx) as [mrs' e'] eqn:E1.
  simpl in H1.
  pose proof (shr_fexp_nonneg
                (round_nearest_even (shr_m mrs') (loc_of_shr_record mrs')) e' loc_Exact
                (round_nearest_even_nonneg _ _ H1)) as H2.
  destruct (shr_fexp Binary64.prec Binary64.emax
              (round_nearest_even (shr_m mrs') (loc_of_shr_record mrs'))
              e' loc_Exact) as [mrs'' e''] eqn:E2. simpl in H2.
  destruct (shr_m mrs'') as [|m|m]; [exact eq_refl| |lia].
  destruct (e'' <=? Binary64.emax - Binary64.prec)%Z; exact eq_refl.
Qed.

Lemma SFdiv_core_nonneg m1 e1 m2 e2 :
  (0 <= m1)%Z -> (0 < m2)%Z ->
  (0 <= fst (fst (SFdiv_core_binary Binary64.prec Binary64.emax m1 e1 m2 e2)))%Z.
Proof.
  intros H1 H2. unfold SFdiv_core_binary.
  set (s := (e1 - e2 - Z.min _ _)%Z).
  set (m' := match s with Zpos _ => Z.shiftl m1 s | Z0 => m1 | Zneg _ => 0%Z end).
  assert (Hm' : (0 <= m')%Z).
  { unfold m'. destruct s; try lia. now apply Z.shiftl_nonneg. }
  pose proof (Z.div_pos m' m2 Hm' H2) as Hq. unfold Z.div in Hq.
  destruct (Z.div_eucl m' m2) as [q r]. exact Hq.
Qed.

Lemma signed_false_nonneg r : B64.signed false r -> B64.nonneg r = true.
Proof. destruct r; simpl; try tauto; now intros ->. Qed.

Lemma signed_number s r : B64.signed s r -> B64.number r = true.
Proof. destruct r; simpl; tauto. Qed.

Lemma nonneg_number x : B64.nonneg x = true -> B64.number x = true.
Proof. now destruct x. Qed.

Lemma SFdiv_finite_signed sx mx ex sy my ey :
  B64.signed (xorb sx sy)
    (SFdiv Binary64.prec Binary64.emax (S754_finite sx mx ex) (S754_finite sy my ey)).
Proof.
  unfold SFdiv.
  pose proof (SFdiv_core_nonneg (Zpos mx) ex (Zpos my) ey) as Hq.
  destruct (SFdiv_core_binary Binary64.prec Binary64.emax (Zpos mx) ex (Zpos my) ey)
    as [[mz ez] lz].
  apply binary_round_aux_signed. apply Hq; lia.
Qed.

Lemma truediv_number a b : b <> O -> B64.number (Binary64.truediv a b) = true.
Proof.
  intros Hb. unfold Binary64.truediv.
  destruct a as [|a], b as [|b]; try congruence; try reflexivity.
  eapply signed_number. apply SFdiv_finite_signed.
Qed.

(** On small integers [a / b] is [float(a) / float(b)]. *)
Lemma truediv_small :
  let grid := list_prod (seq 0 24) (seq 1 24) in
  map (fun '(a, b) => Binary64.truediv a b) grid =
  map (fun '(a, b) => SFdiv Binary64.prec Binary64.emax
                        (Binary64.of_rational (Z.of_nat a # 1))
                        (Binary64.of_rational (Z.of_nat b # 1))) grid.
Proof. vm_compute. reflexivity. Qed.

Lemma SFadd_nonneg x y :
  B64.nonneg x = true -> B64.nonneg y = true ->
  B64.nonneg (SFadd Binary64.prec Binary64.emax x y) = true.
Proof.
  destruct x as [sx|sx| |sx mx ex], y as [sy|sy| |sy my ey]; simpl;
    try discriminate; try destruct sx; try destruct sy; simpl;
    try discriminate; try reflexivity.
  intros _ _. apply signed_false_nonneg. unfold binary_normalize.
  unfold binary_round.
  destruct (shl_align _ _ _) as [mz ez]. now apply binary_round_aux_signed.
Qed.

Lemma SFmul_nonneg x c :
  B64.nonneg x = true -> B64.ordinary c = true ->
  B64.nonneg (SFmul Binary64.prec Binary64.emax x c) = true.
Proof.
  destruct x as [sx|sx| |sx mx ex], c as [sy|sy| |[] my ey]; simpl;
    try discriminate; try destruct sx; simpl; try discriminate; try reflexivity.
  intros _ _. apply signed_false_nonneg. now apply binary_round_aux_signed.
Qed.

Lemma SFdiv_nonneg x c :
  B64.nonneg x = true -> B64.ordinary c = true ->
  B64.nonneg (SFdiv Binary64.prec Binary64.emax x c) = true.
Proof.
  destruct x as [sx|sx| |sx mx ex], c as [sy|sy| |[] my ey];
    try discriminate; try destruct sx; try discriminate; try reflexivity.
  intros _ _. apply signed_false_nonneg.
  apply (SFdiv_finite_signed false mx ex false my ey).
Qed.

Lemma SFltb_pos_nonneg x : SFltb (S754_zero false) x = true -> B64.nonneg x = true.
Proof. destruct x as [s|[]| |[] m e]; simpl; try discriminate; reflexivity. Qed.

#[global] Instance Binary64_order : ScoreOrder spec_float := {|
  is_number := B64.number;
  fltb_asym := SFltb_asym;
  fltb_negtrans := SFltb_negtrans;
  fltb_number := SFltb_number;
  int_div_number := truediv_number
|}.

(** ** Facts about [precedes] *)

Lemma precedes_cons {A} (a b x : A) l : precedes a b l -> precedes a b (x :: l).
Proof.
  intros (l1 & l2 & l3 & ->). now exists (x :: l1), l2, l3.
Qed.

Lemma precedes_head {A} (a b : A) l : In b l -> precedes a b (a :: l).
Proof.
  intros Hb. apply in_split in Hb as (l2 & l3 & ->). now exists [], l2, l3.
Qed.

Lemma precedes_cons_inv {A} (a b x : A) l :
  precedes a b (x :: l) -> (x = a /\ In b l) \/ precedes a b l.
Proof.
  intros (l1 & l2 & l3 & E). destruct l1 as [|y l1]; simpl in E.
  - injection E as -> ->. left. split; [reflexivity|].
    apply in_or_app. right. now left.
  - injection E as -> ->. right. now exists l1, l2, l3.
Qed.

Lemma precedes_In {A} (a b : A) l : precedes a b l -> In a l /\ In b l.
Proof.
  intros (l1 & l2 & l3 & ->). split.
  - apply in_or_app. right. now left.
  - apply in_or_app. right. right. apply in_or_app. right. now left.
Qed.



Lemma precedes_firstn {A} (a b : A) n l : precedes a b (firstn n l) -> precedes a b l.
Proof.
  intros (l1 & l2 & l3 & E). exists l1, l2, (l3 ++ skipn n l).
  rewrite <- (firstn_skipn n l) at 1. rewrite E.
  repeat (rewrite <- app_assoc; simpl). reflexivity.
Qed.

Lemma StronglySorted_precedes {A} (R : A -> A -> Prop) (a b : A) l :
  StronglySorted R l -> precedes a b l -> R a b.
Proof.
  intros Hs (l1 & l2 & l3 & ->).
  induction l1 as [|y l1 IH]; simpl in Hs.
  - apply StronglySorted_inv in Hs as [_ Hall].
    rewrite List.Forall_forall in Hall. apply Hall.
    apply in_or_app. right. now left.
  - apply StronglySorted_inv in Hs as [Hs _]. now apply IH.
Qed.

(** ** Facts about the stable descending sort *)

Section SortFacts.
Context {F : Type} `{ScoreArith F} {A : Type}.
Variable key : A -> F.

Lemma insert_desc_split x l :
  exists l1 l2, l = l1 ++ l2 /\ insert_desc key x l = l1 ++ x :: l2.
Proof.
  induction l as [|y l (l1 & l2 & E1 & E2)]; simpl.
  - now exists [], [].
  - destruct (fltb (key x) (key y)).
    + exists (y :: l1), l2. simpl. now rewrite E2, <- E1.
    + now exists [], (y :: l).
Qed.

Lemma insert_desc_perm x l : Permutation (insert_desc key x l) (x :: l).
Proof.
  destruct (insert_desc_split x l) as (l1 & l2 & -> & ->).
  symmetry. apply Permutation_middle.
Qed.

Lemma sort_desc_perm l : Permutation (sort_desc key l) l.
Proof.
  induction l as [|x l IH]; simpl; [constructor|].
  etransitivity; [apply insert_desc_perm|]. now constructor.
Qed.

Lemma sort_desc_In x l : In x (sort_desc key l) <-> In x l.
Proof.
  split; apply Permutation_in; [|symmetry]; apply sort_desc_perm.
Qed.




Section Ordered.
Context `{!ScoreOrder F}.

Lemma insert_desc_sorted x l :
  Forall (fun y => is_number (key y) = true) l ->
  StronglySorted (desc key) l -> StronglySorted (desc key) (insert_desc key x l).
Proof.
  induction l as [|y l IH]; simpl; intros Hn Hs.
  - repeat constructor.
  - apply StronglySorted_inv in Hs as [Hs Hall].
    apply Forall_cons_iff in Hn as [Hy Hn].
    destruct (fltb (key x) (key y)) eqn:E.
    + constructor; [now apply IH|].
      rewrite List.Forall_forall in *. intros z Hz.
      apply (Permutation_in _ (insert_desc_perm x l)) in Hz as [<-|Hz].
      * unfold desc. now apply fltb_asym.
      * now apply Hall.
    + constructor; [now constructor|].
      constructor; [exact E|].
      rewrite List.Forall_forall in *. intros z Hz.
      unfold desc. apply fltb_negtrans with (key y); [exact Hy|exact E|]. now apply Hall.
Qed.

(** A list without NaN keys comes out sorted. *)
Lemma sort_desc_sorted l :
  Forall (fun y => is_number (key y) = true) l ->
  StronglySorted (desc key) (sort_desc key l).
Proof.
  induction l as [|x l IH]; simpl; intros Hn; [constructor|].
  apply Forall_cons_iff in Hn as [Hx Hn].
  apply insert_desc_sorted; [|now apply IH].
  rewrite List.Forall_forall in *. intros y Hy. apply Hn. exact (proj1 (sort_desc_In y l) Hy).
Qed.

(** Stability, by classes: the results of one score keep the order
    they came in. *)
Lemma insert_desc_tied v x l :
  is_number v = true ->
  List.filter (tied key v) (insert_desc key x l) = List.filter (tied key v) (x :: l).
Proof.
  intros Hv. induction l as [|y l IH]; simpl; [reflexivity|].
  destruct (fltb (key x) (key y)) eqn:E; [|reflexivity].
  simpl in *. rewrite IH.
  destruct (tied key v x) eqn:Tx, (tied key v y) eqn:Ty; try reflexivity.
  exfalso. unfold tied in Tx, Ty.
  apply andb_true_iff in Tx as [Tx1 Tx2], Ty as [Ty1 Ty2].
  apply negb_true_iff in Tx1, Tx2, Ty1, Ty2.
  pose proof (fltb_negtrans _ _ _ Hv Tx2 Ty1). congruence.
Qed.

Lemma sort_desc_tied v l :
  is_number v = true ->
  List.filter (tied key v) (sort_desc key l) = List.filter (tied key v) l.
Proof.
  intros Hv. induction l as [|x l IH]; simpl; [reflexivity|].
  rewrite insert_desc_tied by exact Hv. simpl. now rewrite IH.
Qed.

(** A sorted list is left as it is. *)
Lemma sort_desc_id l : StronglySorted (desc key) l -> sort_desc key l = l.
Proof.
  induction l as [|x l IH]; intros Hs; [reflexivity|].
  apply StronglySorted_inv in Hs as [Hs Hall]. simpl. rewrite (IH Hs).
  destruct l as [|y l]; [reflexivity|]. simpl.
  apply Forall_inv in Hall. unfold desc in Hall. now rewrite Hall.
Qed.
End Ordered.
End SortFacts.

Lemma sort_desc_map {F} `{ScoreArith F} {A B} (f : A -> B) (key : B -> F) l :
  map f (sort_desc (fun x => key (f x)) l) = sort_desc key (map f l).
Proof.
  induction l as [|x l IH]; simpl; [reflexivity|]. rewrite <- IH.
  generalize (sort_desc (fun x => key (f x)) l). intros s.
  induction s as [|y s IHs]; simpl; [reflexivity|].
  destruct (fltb (key (f x)) (key (f y))); simpl; [now rewrite IHs | reflexivity].
Qed.

Lemma sort_desc_ext {F} `{ScoreArith F} {A} (key key' : A -> F) l :
  (forall x, key x = key' x) -> sort_desc key l = sort_desc key' l.
Proof.
  intros E. induction l as [|x l IH]; simpl; [reflexivity|]. rewrite IH.
  generalize (sort_desc key' l). intros s.
  induction s as [|y s IHs]; simpl; [reflexivity|].
  now rewrite !E, IHs.
Qed.

(** ** Running the methods *)

Ltac run_M :=
  unfold mbind, M_bind, mret, M_ret, record_call, get_self, cache_store; simpl.

Lemma bind_run {F A B} (m : M F A) (k : A -> M F B) (self : CodeSearch F) :
  (m ≫= k) self = k (fst (m self)) (snd (m self)).
Proof. unfold mbind, M_bind. now destruct (m self). Qed.

Lemma log_calls_nil {F} (self : CodeSearch F) : log_calls [] self = self.
Proof. destruct self. unfold log_calls. simpl. now rewrite app_nil_r. Qed.

Lemma log_calls_app {F} (cs1 cs2 : list Call) (self : CodeSearch F) :
  log_calls cs2 (log_calls cs1 self) = log_calls (cs1 ++ cs2) self.
Proof. unfold log_calls. simpl. now rewrite app_assoc. Qed.

Section RunKeyword.
Context {F : Type} `{ScoreArith F}.

Lemma scoring_loop_run keywords elems scored (self : CodeSearch F) :
  for_each elems
    (fun scored elem =>
       score ← score_call elem keywords;
       mret (if fltb (of_Q 0) score
             then scored ++ [(elem, score, keywords)] else scored))
    scored self
  = (scored ++ List.filter (fun t => fltb (of_Q 0) (snd (fst t)))
                           (map (scored_tuple keywords) elems),
     log_calls (map CallScore elems) self).
Proof.
  revert scored self. induction elems as [|elem elems IH]; intros scored self.
  - simpl. run_M. now rewrite app_nil_r, log_calls_nil.
  - simpl. unfold score_call at 1. run_M. rewrite IH, log_calls_app. simpl.
    destruct (fltb (of_Q 0) (_score_element_keywords elem keywords));
      [now rewrite <- app_assoc | reflexivity].
Qed.

Lemma tuple_candidates keywords idx :
  map tuple_result
      (List.filter (fun t => fltb (of_Q 0) (snd (fst t))) (map (scored_tuple keywords) idx))
  = keyword_candidates idx keywords.
Proof.
  unfold keyword_candidates. induction idx as [|elem idx IH]; simpl; [reflexivity|].
  destruct (fltb (of_Q 0) (_score_element_keywords elem keywords)); simpl;
    now rewrite IH.
Qed.

(** What a call of [keyword_search] returns and which calls it makes. *)
Lemma keyword_search_run query top_k (self : CodeSearch F) :
  keyword_search query top_k self =
  match _extract_keywords query with
  | [] => ([], log_calls [CallKeyword query top_k] self)
  | _ :: _ =>
      (firstn top_k
         (sort_desc score (keyword_candidates (index self) (_extract_keywords query))),
       log_calls (CallKeyword query top_k :: map CallScore (index self)) self)
  end.
Proof.
  unfold keyword_search. rewrite bind_run. simpl.
  destruct (_extract_keywords query) as [|kw kws] eqn:E; [reflexivity|].
  rewrite bind_run. simpl. rewrite bind_run, scoring_loop_run. simpl.
  unfold mret, M_ret. rewrite log_calls_app. simpl.
  f_equal. rewrite <- tuple_candidates, <- sort_desc_map, <- firstn_map.
  rewrite (sort_desc_ext (fun x => score (tuple_result x)) (fun x => snd (fst x)))
    by now intros [[elem sc] terms].
  reflexivity.
Qed.

End RunKeyword.

(** ** Keyword search *)

Lemma filter_nil_iff {A} (f : A -> bool) l :
  List.filter f l = [] <-> List.Forall (fun x => f x = false) l.
Proof.
  induction l as [|x l IH]; simpl.
  - split; [constructor | reflexivity].
  - destruct (f x) eqn:E.
    + split; [discriminate|]. intros Hall. apply Forall_inv in Hall. congruence.
    + rewrite IH. split; [now constructor | apply Forall_inv_tail].
Qed.

(** No keyword is extracted exactly when every token of the lowercased
    query is a stop word or has at most two characters. *)
Lemma _extract_keywords_nil_iff query :
  _extract_keywords query = [] <->
  List.Forall (fun w => mem_string w stop_words = true \/ (String.length w <= 2)%nat)
              (findall_words (lower query)).
Proof.
  unfold _extract_keywords. rewrite filter_nil_iff.
  split; intros Hall; eapply List.Forall_impl; try exact Hall; simpl; intros w Hw.
  - apply andb_false_iff in Hw as [Hw|Hw].
    + left. now apply negb_false_iff.
    + right. apply Nat.ltb_ge in Hw. exact Hw.
  - apply andb_false_iff. destruct Hw as [Hw|Hw].
    + left. now apply negb_false_iff.
    + right. now apply Nat.ltb_ge.
Qed.

(** C10: when every token of the query is a stop word or has at most two
    characters, so that no keyword is extracted, [keyword_search] returns
    the empty list whatever the index and [top_k] are, and the only call
    it records is its own: no element is scored. *)
Theorem keyword_search_no_keywords {F} `{ScoreArith F}
    (self : CodeSearch F) (query : string) (top_k : nat) :
  List.Forall (fun w => mem_string w stop_words = true \/ (String.length w <= 2)%nat)
              (findall_words (lower query)) ->
  _extract_keywords query = [] /\
  keyword_search query top_k self = ([], log_calls [CallKeyword query top_k] self).
Proof.
  intros Hall. apply _extract_keywords_nil_iff in Hall.
  split; [exact Hall|]. rewrite keyword_search_run. now rewrite Hall.
Qed.

Lemma keyword_search_no_keywords_witness :
  keyword_search "How do I use the a, to?" 5 (@lexical_search Q)
  = ([], log_calls [CallKeyword "How do I use the a, to?" 5] lexical_search).
Proof.
  apply (keyword_search_no_keywords lexical_search "How do I use the a, to?" 5).
  vm_compute. repeat constructor.
Defined.

Lemma firstn_Forall {A} (P : A -> Prop) n l : List.Forall P l -> List.Forall P (firstn n l).
Proof.
  intros Hall. rewrite List.Forall_forall in *. intros x Hx.
  apply Hall. rewrite <- (firstn_skipn n l). apply in_or_app. now left.
Qed.

Lemma keyword_candidates_spec {F} `{ScoreArith F} idx keywords (r : SearchResult F) :
  In r (keyword_candidates idx keywords) <->
  exists elem, In elem idx /\ r = keyword_result keywords elem /\
               fltb (of_Q 0) (_score_element_keywords elem keywords) = true.
Proof.
  unfold keyword_candidates. rewrite filter_In, in_map_iff. split.
  - intros [(elem & <- & Hin) Hpos]. now exists elem.
  - intros (elem & Hin & -> & Hpos). split; [now exists elem | exact Hpos].
Qed.

Lemma keyword_candidates_numbers {F} `{ScoreOrder F} idx keywords :
  List.Forall (fun r : SearchResult F => is_number (score r) = true)
              (keyword_candidates idx keywords).
Proof.
  rewrite List.Forall_forall. intros r Hr.
  apply keyword_candidates_spec in Hr as (elem & _ & -> & Hpos).
  simpl. now apply fltb_number in Hpos.
Qed.

(** C4: for a query with at least one extracted keyword, the results of
    [keyword_search] are the first [top_k] entries of the list [sorted]
    that holds exactly the elements of positive lexical score, in
    descending order of score, elements of equal score in index order;
    so every result has a score strictly above 0 (the score the lexical
    scorer computes for its element) and there are at most [top_k].
    This holds of every ordered arithmetic, binary64 included. *)
Theorem keyword_search_positive_sorted_truncated {F} `{ScoreOrder F}
    (self : CodeSearch F) (query : string) (top_k : nat) :
  _extract_keywords query <> [] ->
  let keywords := _extract_keywords query in
  let candidates := keyword_candidates (index self) keywords in
  let results := fst (keyword_search query top_k self) in
  exists sorted,
    results = firstn top_k sorted /\
    Permutation sorted candidates /\
    StronglySorted (desc score) sorted /\
    (forall v, is_number v = true ->
               List.filter (tied score v) sorted = List.filter (tied score v) candidates) /\
    List.Forall (fun r => fltb (of_Q 0) (score r) = true /\
                          In (element r) (index self) /\
                          score r = _score_element_keywords (element r) keywords) results /\
    (length results <= top_k)%nat.
Proof.
  intros Hne keywords candidates results.
  exists (sort_desc score candidates).
  assert (E : results = firstn top_k (sort_desc score candidates)).
  { unfold results. rewrite keyword_search_run.
    destruct (_extract_keywords query) eqn:Ek; [congruence|]. reflexivity. }
  split; [exact E|]. split; [apply sort_desc_perm|].
  split; [exact (sort_desc_sorted score candidates (keyword_candidates_numbers _ _))|].
  split; [intros v Hv; exact (sort_desc_tied score v candidates Hv)|].
  split.
  - rewrite E. apply firstn_Forall. rewrite List.Forall_forall. intros r Hr.
    apply sort_desc_In in Hr. apply keyword_candidates_spec in Hr
      as (elem & Hin & -> & Hpos). simpl. auto.
  - rewrite E. apply firstn_le_length.
Qed.

(** In binary64, on the index of four elements: the element of score 0
    is left out, the element of score 7.0 moves in front of the one of
    score 5.0 indexed before it, and of the two elements of score 5.0
    the one that comes first in the index is kept while the cut at
    [top_k = 2] drops the other. *)
Lemma keyword_search_positive_sorted_truncated_witness :
  map (fun r => (name (element r), score r))
      (fst (keyword_search "config" 2 (@ranked_search spec_float)))
  = [("parse_config", of_Q 7); ("ConfigError", of_Q 5)] /\
  map (fun r => (name (element r), score r))
      (keyword_candidates (F := spec_float) (index (@ranked_search spec_float)) (_extract_keywords "config"))
  = [("ConfigError", of_Q 5); ("parse_config", of_Q 7); ("config_path", of_Q 5)] /\
  exists sorted,
    fst (keyword_search "config" 2 (@ranked_search spec_float)) = firstn 2 sorted /\
    Permutation sorted
      (keyword_candidates (F := spec_float) (index (@ranked_search spec_float)) (_extract_keywords "config")) /\
    StronglySorted (desc score) sorted /\
    (forall v, is_number v = true ->
               List.filter (tied score v) sorted =
               List.filter (tied score v)
                 (keyword_candidates (F := spec_float) (index (@ranked_search spec_float))
                    (_extract_keywords "config"))) /\
    List.Forall (fun r => fltb (of_Q 0) (score r) = true /\
                          In (element r) (index (@ranked_search spec_float)) /\
                          score r = _score_element_keywords (element r)
                                      (_extract_keywords "config"))
                (fst (keyword_search "config" 2 (@ranked_search spec_float))) /\
    (length (fst (keyword_search "config" 2 (@ranked_search spec_float))) <= 2)%nat.
Proof.
  split; [vm_compute; reflexivity|].
  split; [vm_compute; reflexivity|].
  apply (keyword_search_positive_sorted_truncated
           (@ranked_search spec_float) "config" 2).
  vm_compute. discriminate.
Defined.

(** ** Hybrid search and the cache *)

Lemma get_self_run {F} (self : CodeSearch F) : get_self self = (self, self).
Proof. reflexivity. Qed.

Lemma mret_run {F A} (a : A) (self : CodeSearch F) : (mret a : M F A) self = (a, self).
Proof. reflexivity. Qed.

Section RunHybrid.
Context {F : Type} `{ScoreArith F}.

Lemma hybrid_search_hit query top_k (self : CodeSearch F) cached :
  query_cache self !! cache_key query top_k = Some cached ->
  hybrid_search query top_k self = (cached, self).
Proof.
  intros Hhit. unfold hybrid_search.
  rewrite bind_run, get_self_run. cbn [fst snd]. now rewrite Hhit.
Qed.

Lemma hybrid_search_miss query top_k (self : CodeSearch F) :
  query_cache self !! cache_key query top_k = None ->
  hybrid_search query top_k self =
  (fst (hybrid_fresh query top_k self),
   set_cache (<[cache_key query top_k := fst (hybrid_fresh query top_k self)]>
                (query_cache (snd (hybrid_fresh query top_k self))))
             (snd (hybrid_fresh query top_k self))).
Proof.
  intros Hmiss. unfold hybrid_search, hybrid_fresh.
  rewrite !(bind_run get_self), get_self_run. cbn [fst snd]. rewrite Hmiss.
  rewrite bind_run. rewrite bind_run. reflexivity.
Qed.
End RunHybrid.

(** C7: without a vector backend and with no cache entry for the key,
    [hybrid_search] returns the very sequence a direct call of
    [keyword_search] with the same query and [top_k] returns. *)
Theorem hybrid_search_unavailable_is_keyword_search {F} `{ScoreArith F}
    (self : CodeSearch F) (query : string) (top_k : nat) :
  use_tfidf self = false ->
  query_cache self !! cache_key query top_k = None ->
  fst (hybrid_search query top_k self) = fst (keyword_search query top_k self).
Proof.
  intros Hoff Hmiss. rewrite (hybrid_search_miss _ _ _ Hmiss). cbn [fst].
  unfold hybrid_fresh. rewrite bind_run, get_self_run. cbn [fst snd].
  now rewrite Hoff.
Qed.

Lemma hybrid_search_unavailable_is_keyword_search_witness :
  fst (hybrid_search "parse configuration" 5 (@lexical_search Q))
  = fst (keyword_search "parse configuration" 5 (@lexical_search Q)).
Proof.
  apply (hybrid_search_unavailable_is_keyword_search
           (@lexical_search Q) "parse configuration" 5); reflexivity.
Defined.

(** C6: after a call of [hybrid_search] the cache holds the returned
    sequence under the key of [(query, top_k)], and a second call with
    the same pair returns that sequence and leaves the search object as
    it was, trace of calls included: neither scorer nor the re-ranker
    runs again. *)
Theorem hybrid_search_cached {F} `{ScoreArith F}
    (self : CodeSearch F) (query : string) (top_k : nat) :
  let results1 := fst (hybrid_search query top_k self) in
  let self1 := snd (hybrid_search query top_k self) in
  query_cache self1 !! cache_key query top_k = Some results1 /\
  hybrid_search query top_k self1 = (results1, self1) /\
  calls (snd (hybrid_search query top_k self1)) = calls self1.
Proof.
  cbv zeta.
  assert (Hstored : query_cache (snd (hybrid_search query top_k self))
                      !! cache_key query top_k
                    = Some (fst (hybrid_search query top_k self))).
  { destruct (query_cache self !! cache_key query top_k) as [cached|] eqn:E.
    - now rewrite (hybrid_search_hit _ _ _ _ E).
    - rewrite (hybrid_search_miss _ _ _ E). cbn [fst snd set_cache query_cache].
      apply lookup_insert_eq. }
  split; [exact Hstored|].
  rewrite (hybrid_search_hit _ _ _ _ Hstored). split; reflexivity.
Qed.

(** ** The combiner *)

Section Dict.
Context {V : Type}.

Lemma dict_get_set_eq k (v : V) d : dict_get k (dict_set k v d) = Some v.
Proof.
  induction d as [|[k' v'] d IH]; simpl.
  - now rewrite String.eqb_refl.
  - destruct (String.eqb k k') eqn:E; simpl; rewrite ?String.eqb_refl, ?E; auto.
Qed.

Lemma dict_get_set_ne k k' (v : V) d :
  k <> k' -> dict_get k' (dict_set k v d) = dict_get k' d.
Proof.
  intros Hne. induction d as [|[k0 v0] d IH]; simpl.
  - destruct (String.eqb k' k) eqn:E; [|reflexivity].
    apply String.eqb_eq in E. congruence.
  - destruct (String.eqb k k0) eqn:E; simpl.
    + apply String.eqb_eq in E. subst k0.
      destruct (String.eqb k' k) eqn:E'; [|reflexivity].
      apply String.eqb_eq in E'. congruence.
    + now rewrite IH.
Qed.

Lemma dict_get_In k (v : V) d : dict_get k d = Some v -> In v (map snd d).
Proof.
  induction d as [|[k' v'] d IH]; simpl; [discriminate|].
  destruct (String.eqb k k'); [intros [= ->]; now left | right; auto].
Qed.
End Dict.

Section Combine.
Context {F : Type} `{ScoreArith F}.
Implicit Types (d : list (string * SearchResult F)) (r existing : SearchResult F)
  (semantic keyword : list (SearchResult F)).

Lemma seed_step_get k d r :
  dict_get k (seed_step d r) =
  if String.eqb (result_key r) k then Some r else dict_get k d.
Proof.
  unfold seed_step. destruct (String.eqb (result_key r) k) eqn:E.
  - apply String.eqb_eq in E. subst k. apply dict_get_set_eq.
  - apply dict_get_set_ne. intros Heq. rewrite Heq, String.eqb_refl in E. discriminate.
Qed.

Lemma keyword_step_get_ne k d r :
  result_key r <> k -> dict_get k (keyword_step d r) = dict_get k d.
Proof.
  intros Hne. unfold keyword_step.
  destruct (dict_get (result_key r) d); now apply dict_get_set_ne.
Qed.

Lemma keyword_step_get_merge d r existing :
  dict_get (result_key r) d = Some existing ->
  dict_get (result_key r) (keyword_step d r) = Some (merge existing r).
Proof.
  intros Hget. unfold keyword_step. rewrite Hget. apply dict_get_set_eq.
Qed.

Lemma keyword_step_present k d r :
  is_Some (dict_get k d) -> is_Some (dict_get k (keyword_step d r)).
Proof.
  intros Hk. destruct (string_dec (result_key r) k) as [<-|Hne].
  - unfold keyword_step. destruct (dict_get (result_key r) d);
      rewrite dict_get_set_eq; eauto.
  - now rewrite keyword_step_get_ne.
Qed.

(** After seeding, the entry of a key is the last semantic result of
    that key. *)
Lemma seeded_get k semantic existing :
  dict_get k (fold_left seed_step semantic []) = Some existing ->
  In existing semantic /\ result_key existing = k.
Proof.
  induction semantic as [|r semantic IH] using rev_ind; [discriminate|].
  rewrite fold_left_app. cbn [fold_left]. rewrite seed_step_get.
  destruct (String.eqb (result_key r) k) eqn:E.
  - intros [= <-]. apply String.eqb_eq in E.
    split; [apply in_or_app; right; now left | exact E].
  - intros Hget. destruct (IH Hget) as [Hin Hk].
    split; [apply in_or_app; now left | exact Hk].
Qed.

Lemma seeded_present k semantic :
  (exists s, In s semantic /\ result_key s = k) ->
  is_Some (dict_get k (fold_left seed_step semantic [])).
Proof.
  intros (s & Hin & Hk).
  induction semantic as [|r semantic IH] using rev_ind; [destruct Hin|].
  rewrite fold_left_app. cbn [fold_left]. rewrite seed_step_get.
  destruct (String.eqb (result_key r) k) eqn:E; [eauto|].
  apply in_app_or in Hin as [Hin|[->|[]]]; [now apply IH|].
  subst k. now rewrite String.eqb_refl in E.
Qed.

Lemma keyword_steps_present k d keyword :
  is_Some (dict_get k d) -> is_Some (dict_get k (fold_left keyword_step keyword d)).
Proof.
  revert d. induction keyword as [|r keyword IH]; intros d Hk; [exact Hk|].
  cbn [fold_left]. apply IH. now apply keyword_step_present.
Qed.

Lemma keyword_steps_get_ne k d keyword :
  List.Forall (fun p => result_key p <> k) keyword ->
  dict_get k (fold_left keyword_step keyword d) = dict_get k d.
Proof.
  revert d. induction keyword as [|r keyword IH]; intros d Hall; [reflexivity|].
  cbn [fold_left]. rewrite IH by now apply Forall_inv_tail in Hall.
  apply keyword_step_get_ne. now apply Forall_inv in Hall.
Qed.

Lemma list_of_set_spec xs t : In t (list_of_set xs) <-> In t xs.
Proof. apply nodup_In. Qed.

Lemma list_of_set_NoDup xs : List.NoDup (list_of_set xs).
Proof. apply NoDup_nodup. Qed.

Lemma same_pair_same_key (a b : SearchResult F) :
  codebase (element a) = codebase (element b) ->
  name (element a) = name (element b) ->
  result_key a = result_key b.
Proof. unfold result_key. now intros -> ->. Qed.
End Combine.

(** In binary64 the sum of the doubles nearest 0.4 and 0.6 rounds to 1.0,
    so the merged score is the double 0.75 itself. *)
Lemma merge_score_04_06 (e r : SearchResult spec_float) :
  score e = of_Q (4 # 10) -> score r = of_Q (6 # 10) ->
  score (merge e r) = of_Q (3 # 4).
Proof. intros He Hr. unfold merge. simpl. rewrite He, Hr. now vm_compute. Qed.

(** C1: whenever a keyword result has the [(codebase, name)] pair of a
    seeded semantic result, the combiner finds an entry [existing] under
    its key and replaces it by the merged entry: score
    [(existing.score + result.score) / 2 * 1.5], match type ["hybrid"],
    matched terms the duplicate-free union of both term lists.  When no
    earlier keyword result has the key, [existing] is the semantic result
    seeded under it; when no later one has it, the merged entry is in the
    combiner's output.  In binary64, scores 0.4 and 0.6 merge to exactly
    0.75. *)
Theorem combine_merges_shared_key {F} `{ScoreArith F}
    (semantic pre post : list (SearchResult F)) (seeded result : SearchResult F) :
  In seeded semantic ->
  codebase (element seeded) = codebase (element result) ->
  name (element seeded) = name (element result) ->
  let key := result_key result in
  let d := fold_left keyword_step pre (fold_left seed_step semantic []) in
  exists existing,
    dict_get key d = Some existing /\
    (List.Forall (fun p => result_key p <> key) pre ->
       In existing semantic /\ result_key existing = key) /\
    dict_get key (keyword_step d result) = Some (merge existing result) /\
    (List.Forall (fun p => result_key p <> key) post ->
       In (merge existing result) (_combine_results semantic (pre ++ result :: post))) /\
    score (merge existing result) =
      fmul (fdiv (fadd (score existing) (score result)) (of_Q 2)) (of_Q (3 # 2)) /\
    match_type (merge existing result) = "hybrid" /\
    (forall t, In t (matched_terms (merge existing result)) <->
               In t (matched_terms existing) \/ In t (matched_terms result)) /\
    List.NoDup (matched_terms (merge existing result)) /\
    (forall e r : SearchResult spec_float,
       score e = of_Q (4 # 10) -> score r = of_Q (6 # 10) ->
       score (merge e r) = of_Q (3 # 4) /\ match_type (merge e r) = "hybrid").
Proof.
  intros Hin Hcb Hname key d.
  assert (Hpresent : is_Some (dict_get key d)).
  { apply keyword_steps_present, seeded_present. exists seeded.
    split; [exact Hin | now apply same_pair_same_key]. }
  destruct Hpresent as [existing Hget]. exists existing.
  split; [exact Hget|]. split.
  { intros Hpre. unfold d in Hget. rewrite keyword_steps_get_ne in Hget by exact Hpre.
    now apply seeded_get. }
  split; [now apply keyword_step_get_merge|]. split.
  { intros Hpost. unfold _combine_results.
    rewrite fold_left_app. cbn [fold_left]. fold d.
    apply dict_get_In with key.
    rewrite keyword_steps_get_ne by exact Hpost.
    now apply keyword_step_get_merge. }
  split; [reflexivity|]. split; [reflexivity|]. split.
  { intros t. simpl. rewrite list_of_set_spec. apply in_app_iff. }
  split; [apply list_of_set_NoDup|].
  intros e r He Hr. split; [now apply merge_score_04_06 | reflexivity].
Qed.

Lemma combine_merges_shared_key_witness :
  exists existing,
    In existing [semantic_04] /\
    In (merge existing keyword_06) (_combine_results [semantic_04] [keyword_06]) /\
    score (merge existing keyword_06) = of_Q (3 # 4).
Proof.
  destruct (combine_merges_shared_key [semantic_04] [] [] semantic_04 keyword_06)
    as (existing & _ & Hseeded & _ & Hout & _ & _ & _ & _ & Hex).
  - simpl. now left.
  - reflexivity.
  - reflexivity.
  - exists existing. split; [apply Hseeded; constructor|].
    split; [apply Hout; constructor|].
    destruct (Hseeded (List.Forall_nil _)) as [[<-|[]] _].
    now apply Hex.
Defined.

(** ** The lexical scorer *)

Section ScoreFacts.
Context {F : Type} `{ScoreArith F}.

Lemma add_times_S (w : F) n score0 :
  add_times w (S n) score0 = add_times w n (fadd score0 w).
Proof.
  unfold add_times. revert score0.
  induction n as [|n IH]; intros score0; [reflexivity|].
  simpl in *. now rewrite IH.
Qed.

(** One scoring loop adds the weight once per listed keyword found in
    the field. *)
Lemma add_matches_count (w : F) field_lower keywords score0 :
  add_matches w field_lower keywords score0
  = add_times w (count_matches field_lower keywords) score0.
Proof.
  unfold add_matches, count_matches. revert score0.
  induction keywords as [|kw keywords IH]; intros score0; [reflexivity|].
  simpl. destruct (contains kw field_lower); rewrite IH; [|reflexivity].
  simpl length. now rewrite add_times_S.
Qed.

Lemma _score_element_keywords_counts elem keywords :
  _score_element_keywords elem keywords
  = add_times (of_Q (1 # 2)) (count_matches (lower (code elem)) keywords)
      (add_times (of_Q (3 # 2)) (count_matches (lower (signature elem)) keywords)
         (add_times (of_Q 2) (docstring_matches elem keywords)
            (add_times (of_Q 3) (count_matches (lower (name elem)) keywords)
               (of_Q 0)))).
Proof.
  unfold _score_element_keywords, docstring_matches.
  destruct (truthy_docstring elem); now rewrite !add_matches_count.
Qed.
End ScoreFacts.

Lemma add_times_exact (w : Q) n (score0 : Q) :
  (add_times w n score0 == score0 + w * inject_Z (Z.of_nat n))%Q.
Proof.
  unfold add_times. induction n as [|n IH].
  - simpl. unfold inject_Z. ring.
  - rewrite Nat2Z.inj_succ. unfold Z.succ. rewrite inject_Z_plus.
    cbn [Nat.iter].
    change (Nat.iter n (fun sc : Q => fadd sc w) score0 + w
            == score0 + w * (inject_Z (Z.of_nat n) + inject_Z 1))%Q.
    rewrite IH. unfold inject_Z. ring.
Qed.

(** C5 (as amended): the lexical score adds each field's weight (name
    3.0, docstring 2.0, signature 1.5, code 0.5) once for every entry of
    the keyword list that is a substring of the lowercased field, however
    often it occurs in the text; the docstring takes part only when it is
    present and not empty.  In exact arithmetic the score is the weights
    times those counts; a keyword listed twice is counted twice. *)
Theorem lexical_score_weighted_counts {F} `{ScoreArith F}
    (elem : CodeElement) (keywords : list string) :
  _score_element_keywords elem keywords
  = add_times (of_Q (1 # 2)) (count_matches (lower (code elem)) keywords)
      (add_times (of_Q (3 # 2)) (count_matches (lower (signature elem)) keywords)
         (add_times (of_Q 2) (docstring_matches elem keywords)
            (add_times (of_Q 3) (count_matches (lower (name elem)) keywords)
               (of_Q 0)))) /\
  (@_score_element_keywords Q _ elem keywords == weighted_matches elem keywords)%Q.
Proof.
  split; [apply _score_element_keywords_counts|].
  rewrite _score_element_keywords_counts. rewrite !add_times_exact.
  unfold weighted_matches. simpl of_Q. ring.
Qed.

(** C5, the claim as worded fails: the query ["parse parse"] yields the
    keyword list [["parse"; "parse"]], and the element named [parse]
    scores 6.0 (binary64 and exact alike), not the 3.0 of one count per
    distinct keyword. *)
Lemma lexical_score_repeated_keyword_counts_twice :
  _extract_keywords "parse parse" = ["parse"; "parse"] /\
  @_score_element_keywords spec_float _ elem_parse ["parse"; "parse"] = of_Q 6 /\
  (@_score_element_keywords Q _ elem_parse ["parse"; "parse"] == 6)%Q /\
  (weighted_distinct_matches elem_parse ["parse"; "parse"] == 3)%Q /\
  ~ (forall elem keywords,
       @_score_element_keywords Q _ elem keywords == weighted_distinct_matches elem keywords)%Q.
Proof.
  split; [reflexivity|]. split; [now vm_compute|].
  split; [now vm_compute|]. split; [now vm_compute|].
  intros Hclaim. specialize (Hclaim elem_parse ["parse"; "parse"]).
  vm_compute in Hclaim. discriminate.
Qed.

(** ** Semantic search *)

Section RunSemantic.
Context {F : Type} `{ScoreArith F}.

(** The [try] block reads the index and the texts only. *)
Lemma semantic_loop_log_calls cs (self : CodeSearch F) query sims top_indices acc :
  semantic_loop (log_calls cs self) query sims top_indices acc
  = semantic_loop self query sims top_indices acc.
Proof.
  revert acc. induction top_indices as [|idx rest IH]; intros acc; [reflexivity|].
  cbn [semantic_loop log_calls index element_texts].
  destruct (sims !! idx) as [sim|]; [|reflexivity]. cbn [mbind option_bind].
  destruct (fltb (of_Q 0) sim); [|apply IH].
  destruct (index self !! idx); [|reflexivity]. cbn [mbind option_bind].
  destruct (element_texts self !! idx); [|reflexivity]. cbn [mbind option_bind].
  apply IH.
Qed.

Lemma semantic_try_log_calls cs vb (self : CodeSearch F) query top_k :
  semantic_try vb (log_calls cs self) query top_k = semantic_try vb self query top_k.
Proof.
  unfold semantic_try. destruct (similarities vb query); [|reflexivity].
  cbn [mbind option_bind]. apply semantic_loop_log_calls.
Qed.

Lemma semantic_search_run query top_k (self : CodeSearch F) vb results :
  use_tfidf self = true -> vectorizer self = Some vb ->
  semantic_try vb self query top_k = Some results ->
  semantic_search query top_k self = (results, log_calls [CallSemantic query top_k] self).
Proof.
  intros Hon Hvb Htry. unfold semantic_search.
  rewrite bind_run. cbn [record_call fst snd].
  rewrite bind_run, get_self_run. cbn [fst snd].
  replace (use_tfidf (log_calls [CallSemantic query top_k] self)) with true by exact (eq_sym Hon).
  replace (vectorizer (log_calls [CallSemantic query top_k] self)) with (Some vb)
    by exact (eq_sym Hvb).
  cbn [negb]. now rewrite semantic_try_log_calls, Htry.
Qed.

(** The loop succeeds exactly on rows that exist, and appends one result
    for every row of positive similarity. *)
Lemma semantic_loop_rows (self : CodeSearch F) query sims top_indices acc results :
  semantic_loop self query sims top_indices acc = Some results ->
  exists new,
    results = acc ++ new /\
    Forall2 (semantic_row self query sims)
            (List.filter (positive_row sims) top_indices)
            new.
Proof.
  revert acc. induction top_indices as [|idx rest IH]; intros acc Hloop.
  - injection Hloop as <-. exists []. split; [now rewrite app_nil_r | constructor].
  - cbn [semantic_loop] in Hloop. cbn [List.filter]. unfold positive_row at 1.
    destruct (sims !! idx) as [sim|] eqn:Esim; [|discriminate].
    cbn [mbind option_bind] in Hloop.
    destruct (fltb (of_Q 0) sim) eqn:Epos.
    + destruct (index self !! idx) as [elem|] eqn:Eelem; [|discriminate].
      destruct (element_texts self !! idx) as [text|] eqn:Etext; [|discriminate].
      cbn [mbind option_bind] in Hloop.
      apply IH in Hloop as (new & -> & Hrows).
      eexists (_ :: new). split; [now rewrite <- app_assoc|].
      constructor; [|exact Hrows].
      unfold semantic_row. cbn [element score match_type matched_terms].
      repeat split; try assumption. now exists text.
    + now apply IH.
Qed.
End RunSemantic.

(** The constructor aligns the synthesised texts with the index. *)
Lemma new_CodeSearch_texts {F} `{ScoreArith F}
    (fit_transform : list string -> option (VectorBackend F)) idx vb :
  fit_transform (map element_text idx) = Some vb ->
  let self := new_CodeSearch (Some fit_transform) idx true in
  index self = idx /\ use_tfidf self = true /\ vectorizer self = Some vb /\
  element_texts self = map element_text (index self).
Proof.
  intros Hfit. unfold new_CodeSearch. rewrite Hfit. simpl. auto.
Qed.

Lemma _extract_matched_terms_spec query text t :
  In t (_extract_matched_terms query text) <->
  In t (_extract_keywords query) /\ contains t (lower text) = true.
Proof. unfold _extract_matched_terms. cbv zeta. now rewrite filter_In. Qed.

(** C9 (as amended): on the vector path of [semantic_search], the matched
    terms of every result are the extracted query keywords that occur in
    the lowercased text synthesised for its element (name, docstring,
    signature, first five code lines), listed in query order; none of them
    is absent from that text. *)
Theorem semantic_matched_terms_occur {F} `{ScoreArith F}
    (self : CodeSearch F) (vb : VectorBackend F) (query : string) (top_k : nat)
    (results : list (SearchResult F)) :
  element_texts self = map element_text (index self) ->
  use_tfidf self = true ->
  vectorizer self = Some vb ->
  semantic_try vb self query top_k = Some results ->
  fst (semantic_search query top_k self) = results /\
  List.Forall
    (fun r =>
       match_type r = "semantic" /\
       matched_terms r
         = List.filter (fun kw => contains kw (lower (element_text (element r))))
                       (_extract_keywords query) /\
       forall t, In t (matched_terms r) ->
                 In t (_extract_keywords query) /\
                 contains t (lower (element_text (element r))) = true)
    results.
Proof.
  intros Htexts Hon Hvb Htry.
  split; [now rewrite (semantic_search_run _ _ _ _ _ Hon Hvb Htry)|].
  unfold semantic_try in Htry.
  destruct (similarities vb query) as [sims|]; [|discriminate].
  cbn [mbind option_bind] in Htry.
  apply semantic_loop_rows in Htry as (new & -> & Hrows). cbn [app].
  induction Hrows as [|idx r idxs rs Hrow _ IH]; constructor; [|exact IH].
  destruct Hrow as (Helem & _ & _ & Htype & text & Htext & Hterms).
  assert (Etext : text = element_text (element r)).
  { rewrite Htexts, list_lookup_fmap, Helem in Htext. now injection Htext. }
  subst text. split; [exact Htype|]. split; [exact Hterms|].
  intros t Ht. rewrite Hterms in Ht. now apply _extract_matched_terms_spec.
Qed.

Lemma semantic_matched_terms_occur_witness :
  List.Forall
    (fun r =>
       match_type r = "semantic" /\
       matched_terms r
         = List.filter (fun kw => contains kw (lower (element_text (element r))))
                       (_extract_keywords "parse missing") /\
       forall t, In t (matched_terms r) ->
                 In t (_extract_keywords "parse missing") /\
                 contains t (lower (element_text (element r))) = true)
    [ {| element := elem_parse_config; score := (1 # 2)%Q;
         match_type := "semantic"; matched_terms := ["parse"] |};
      {| element := elem_ConfigError; score := (1 # 2)%Q;
         match_type := "semantic"; matched_terms := [] |} ].
Proof.
  apply (semantic_matched_terms_occur (@tie_search Q _) tie_backend "parse missing" 5);
    reflexivity.
Defined.

(** C9, the claim as worded fails: [keyword_search] hands every result
    the whole keyword list.  For the query ["parse missing"] the result
    for [parse_config] lists ["missing"], which occurs in none of its
    fields; for ["parse parse"] the list holds ["parse"] twice. *)
Lemma keyword_search_lists_absent_keyword :
  (exists r t,
     In r (fst (keyword_search "parse missing" 5 (@lexical_search spec_float))) /\
     In t (matched_terms r) /\
     In t (_extract_keywords "parse missing") /\
     contains t (lower (name (element r))) = false /\
     (forall d, docstring (element r) = Some d -> contains t (lower d) = false) /\
     contains t (lower (signature (element r))) = false /\
     contains t (lower (code (element r))) = false) /\
  (exists r,
     In r (fst (keyword_search "parse parse" 5 (@lexical_search spec_float))) /\
     ~ List.NoDup (matched_terms r)).
Proof.
  split.
  - exists (keyword_result ["parse"; "missing"] elem_parse_config), "missing".
    split; [vm_compute; now left|].
    split; [simpl; tauto|]. split; [vm_compute; tauto|].
    split; [reflexivity|]. split; [|split; reflexivity].
    intros d [= <-]. reflexivity.
  - exists (keyword_result ["parse"; "parse"] elem_parse_config).
    split; [vm_compute; now left|].
    simpl. intros Hnd. apply NoDup_cons_iff in Hnd as [Hnotin _].
    apply Hnotin. now left.
Qed.

(** ** Top-k selection *)

Lemma precedes_filter {A} (f : A -> bool) (a b : A) l :
  precedes a b (List.filter f l) -> precedes a b l.
Proof.
  induction l as [|x l IH]; simpl; intros Hp.
  - destruct Hp as (l1 & l2 & l3 & E). now destruct l1.
  - destruct (f x).
    + apply precedes_cons_inv in Hp as [[-> Hb]|Hp].
      * apply precedes_head. now apply filter_In in Hb as [Hb _].
      * apply precedes_cons. now apply IH.
    + apply precedes_cons. now apply IH.
Qed.

Lemma precedes_rev {A} (a b : A) l : precedes a b (rev l) -> precedes b a l.
Proof.
  intros (l1 & l2 & l3 & E). exists (rev l3), (rev l2), (rev l1).
  rewrite <- (rev_involutive l), E.
  rewrite rev_app_distr. simpl. rewrite rev_app_distr. simpl.
  now rewrite <- !app_assoc.
Qed.

Lemma precedes_split {A} (a b : A) l1 l2 : In a l1 -> In b l2 -> precedes a b (l1 ++ l2).
Proof.
  intros Ha Hb. apply in_split in Ha as (p & q & ->), Hb as (r & t & ->).
  exists p, (q ++ r), t. now rewrite <- !app_assoc.
Qed.

Lemma StronglySorted_snoc {A} (R : A -> A -> Prop) l x :
  StronglySorted R l -> List.Forall (fun y => R y x) l -> StronglySorted R (l ++ [x]).
Proof.
  induction l as [|y l IH]; simpl; intros Hs Hall.
  - repeat constructor.
  - apply StronglySorted_inv in Hs as [Hs Hy].
    constructor; [apply IH; [exact Hs | now apply Forall_inv_tail in Hall]|].
    apply Forall_app. split; [exact Hy|]. constructor; [|constructor].
    now apply Forall_inv in Hall.
Qed.

Lemma StronglySorted_rev {A} (R : A -> A -> Prop) l :
  StronglySorted R l -> StronglySorted (fun x y => R y x) (rev l).
Proof.
  induction l as [|x l IH]; simpl; intros Hs; [constructor|].
  apply StronglySorted_inv in Hs as [Hs Hall].
  apply StronglySorted_snoc; [now apply IH|].
  rewrite List.Forall_forall in *. intros y Hy. apply Hall. now apply in_rev.
Qed.

Lemma StronglySorted_filter {A} (R : A -> A -> Prop) (f : A -> bool) l :
  StronglySorted R l -> StronglySorted R (List.filter f l).
Proof.
  induction l as [|x l IH]; simpl; intros Hs; [constructor|].
  apply StronglySorted_inv in Hs as [Hs Hall].
  destruct (f x); [|now apply IH].
  constructor; [now apply IH|].
  rewrite List.Forall_forall in *. intros y Hy. apply Hall.
  now apply filter_In in Hy as [Hy _].
Qed.

Lemma StronglySorted_firstn {A} (R : A -> A -> Prop) n l :
  StronglySorted R l -> StronglySorted R (firstn n l).
Proof.
  revert n. induction l as [|x l IH]; intros [|n] Hs; simpl; try constructor.
  - apply IH. now apply StronglySorted_inv in Hs as [Hs _].
  - apply StronglySorted_inv in Hs as [_ Hall].
    now apply firstn_Forall.
Qed.

Lemma StronglySorted_Forall2 {A B} (P : A -> B -> Prop)
    (R1 : A -> A -> Prop) (R2 : B -> B -> Prop) l1 l2 :
  (forall a b x y, P a x -> P b y -> R1 a b -> R2 x y) ->
  Forall2 P l1 l2 -> StronglySorted R1 l1 -> StronglySorted R2 l2.
Proof.
  intros Hrel Hall. induction Hall as [|a x l1 l2 Hax Hall IH]; intros Hs; [constructor|].
  apply StronglySorted_inv in Hs as [Hs Ha].
  constructor; [now apply IH|].
  clear IH Hs. induction Hall as [|b y l1 l2 Hby Hall IH]; constructor.
  - apply (Hrel a b); [assumption..|]. now apply Forall_inv in Ha.
  - apply IH. now apply Forall_inv_tail in Ha.
Qed.

(** In a list whose good entries all stand before its bad ones, keeping
    the good ones commutes with taking a prefix. *)
Lemma filter_firstn_prefix {A} (f : A -> bool) n l :
  (forall a b, precedes a b l -> f b = true -> f a = true) ->
  List.filter f (firstn n l) = firstn n (List.filter f l).
Proof.
  revert n. induction l as [|x l IH]; intros n Hpre.
  - now destruct n.
  - assert (Hpre' : forall a b, precedes a b l -> f b = true -> f a = true).
    { intros a b Hp. apply Hpre. now apply precedes_cons. }
    destruct (f x) eqn:Ex.
    + destruct n as [|n]; simpl; rewrite Ex; [reflexivity|].
      simpl. now rewrite IH.
    + assert (Hbad : List.Forall (fun y => f y = false) l).
      { rewrite List.Forall_forall. intros y Hy.
        destruct (f y) eqn:Ey; [|reflexivity].
        rewrite (Hpre x y (precedes_head x y l Hy) Ey) in Ex. discriminate. }
      replace (List.filter f (x :: l)) with (@nil A).
      2:{ simpl. rewrite Ex. symmetry. now apply filter_nil_iff. }
      rewrite firstn_nil. apply filter_nil_iff.
      apply firstn_Forall. constructor; assumption.
Qed.

Section TopK.
Context {F : Type} `{ScoreOrder F}.

Lemma semantic_loop_total (self : CodeSearch F) query sims top_indices acc :
  List.Forall (fun idx => (idx < length sims)%nat /\ (idx < length (index self))%nat /\
                          (idx < length (element_texts self))%nat) top_indices ->
  is_Some (semantic_loop self query sims top_indices acc).
Proof.
  revert acc. induction top_indices as [|idx rest IH]; intros acc Hall; [now eexists|].
  apply Forall_cons_iff in Hall as [(Hs & Hi & Ht) Hall].
  cbn [semantic_loop].
  apply lookup_lt_is_Some_2 in Hs as [sim ->], Hi as [elem ->], Ht as [text ->].
  cbn [mbind option_bind]. destruct (fltb (of_Q 0) sim); now apply IH.
Qed.

(** Down a descending list of rows, the rows of positive similarity come
    first. *)
Lemma positive_rows_first (sims : list F) l :
  List.Forall (fun s => is_number s = true) sims ->
  List.Forall (fun idx => (idx < length sims)%nat) l ->
  StronglySorted (fun i j => value_ltb sims i j = false) l ->
  forall a b, precedes a b l -> positive_row sims b = true -> positive_row sims a = true.
Proof.
  intros Hnum Hrange Hs a b Hp Hb.
  pose proof (StronglySorted_precedes _ _ _ _ Hs Hp) as Hab.
  apply precedes_In in Hp as [Ha _].
  rewrite List.Forall_forall in Hrange. apply Hrange in Ha.
  apply lookup_lt_is_Some_2 in Ha as [sa Ea].
  assert (Hsa : is_number sa = true).
  { rewrite List.Forall_forall in Hnum. apply Hnum.
    apply list_elem_of_In. exact (list_elem_of_lookup_2 _ _ _ Ea). }
  unfold positive_row, value_ltb in *. rewrite Ea in *.
  destruct (sims !! b) as [sb|]; [|discriminate].
  destruct (fltb (of_Q 0) sa) eqn:E0; [reflexivity|].
  rewrite (fltb_negtrans _ _ _ Hsa E0 Hab) in Hb. discriminate.
Qed.
End TopK.

(** C3 (as amended): with the vector backend available, a successful
    vector query none of whose similarities is NaN and an [argsort] that
    lists the rows in ascending order of similarity, [semantic_search]
    returns one result per row of
    [order]: the rows of similarity strictly above zero, taken in the
    reverse of [argsort]'s order and cut after [top_k].  So every result
    has a positive score, the scores descend, no row left out has a
    positive similarity above that of a row kept, and two rows of equal
    similarity come in the reverse of the order [argsort] gives them
    (under a stable [argsort] the later-indexed row first). *)
Theorem semantic_search_top_k {F} `{ScoreOrder F}
    (self : CodeSearch F) (vb : VectorBackend F) (query : string) (top_k : nat)
    (sims : list F) :
  use_tfidf self = true ->
  vectorizer self = Some vb ->
  similarities vb query = Some sims ->
  length sims = length (index self) ->
  length (element_texts self) = length (index self) ->
  List.Forall (fun s => is_number s = true) sims ->
  argsort_ascending vb sims ->
  let order := firstn top_k (List.filter (positive_row sims) (rev (argsort vb sims))) in
  exists results,
    fst (semantic_search query top_k self) = results /\
    Forall2 (semantic_row self query sims) order results /\
    StronglySorted (desc score) results /\
    (length results <= top_k)%nat /\
    (forall i j, In i order -> ~ In j order -> positive_row sims j = true ->
                 value_ltb sims i j = false) /\
    (forall i j, precedes i j order -> precedes j i (argsort vb sims)).
Proof.
  intros Hon Hvb Hsims Hlen Htexts Hnum [Hperm Hasc] order.
  set (rows := rev (argsort vb sims)).
  assert (Hrange : List.Forall (fun idx => (idx < length sims)%nat) rows).
  { rewrite List.Forall_forall. intros idx Hidx. apply in_rev in Hidx.
    apply (Permutation_in _ Hperm), in_seq in Hidx. lia. }
  assert (Hdesc : StronglySorted (fun i j => value_ltb sims i j = false) rows).
  { apply (StronglySorted_rev _ _ Hasc). }
  assert (Horder : List.filter (positive_row sims) (firstn top_k rows) = order).
  { apply filter_firstn_prefix. now apply positive_rows_first. }
  destruct (semantic_loop_total self query sims (firstn top_k rows) []) as [results Hloop].
  { apply firstn_Forall. eapply List.Forall_impl; [|exact Hrange].
    cbv beta. intros idx Hidx. lia. }
  assert (Htry : semantic_try vb self query top_k = Some results).
  { unfold semantic_try. rewrite Hsims. exact Hloop. }
  exists results.
  split; [now rewrite (semantic_search_run _ _ _ _ _ Hon Hvb Htry)|].
  apply semantic_loop_rows in Hloop as (new & -> & Hrows). cbn [app].
  rewrite Horder in Hrows.
  assert (Hsorted : StronglySorted (fun i j => value_ltb sims i j = false) order).
  { apply StronglySorted_firstn, StronglySorted_filter, Hdesc. }
  split; [exact Hrows|]. split.
  { refine (StronglySorted_Forall2 _ _ _ _ _ _ Hrows Hsorted).
    intros a b x y (_ & Ea & _) (_ & Eb & _) Hab.
    unfold desc, value_ltb in *. now rewrite Ea, Eb in Hab. }
  split.
  { rewrite <- (Forall2_length _ _ _ Hrows). apply firstn_le_length. }
  split.
  - intros i j Hi Hj Hpos. apply (StronglySorted_precedes _ i j _ Hdesc).
    assert (Hjrows : In j (List.filter (positive_row sims) rows)).
    { apply filter_In. split; [|exact Hpos]. apply -> in_rev.
      apply (Permutation_in _ (Permutation_sym Hperm)), in_seq.
      unfold positive_row in Hpos. destruct (sims !! j) eqn:Ej; [|discriminate].
      apply lookup_lt_Some in Ej. lia. }
    apply precedes_filter with (positive_row sims).
    rewrite <- (firstn_skipn top_k (List.filter (positive_row sims) rows)).
    apply precedes_split; [exact Hi|].
    rewrite <- (firstn_skipn top_k (List.filter (positive_row sims) rows)) in Hjrows.
    apply in_app_or in Hjrows as [Hjrows|Hjrows]; [contradiction | exact Hjrows].
  - intros i j Hp. apply precedes_rev.
    apply precedes_filter with (positive_row sims). now apply precedes_firstn in Hp.
Qed.

(** In binary64, on three rows of similarities 0.25, 0.0 and 0.5: the
    row of similarity 0.0 is left out and the two others come highest
    first. *)
Lemma semantic_search_top_k_witness :
  map (fun r => (name (element r), score r))
      (fst (semantic_search "config" 3 three_rows_search))
  = [("config_path", of_Q (1 # 2)); ("ConfigError", of_Q (1 # 4))] /\
  exists results,
    fst (semantic_search "config" 3 three_rows_search) = results /\
    Forall2 (semantic_row three_rows_search "config" three_rows) [2%nat; 0%nat] results /\
    StronglySorted (desc score) results /\
    (length results <= 3)%nat.
Proof.
  split; [vm_compute; reflexivity|].
  destruct (semantic_search_top_k three_rows_search three_rows_backend "config" 3
              three_rows)
    as (results & Hres & Hrows & Hsorted & Hlen & _); try reflexivity.
  - repeat constructor.
  - split.
    + replace (argsort three_rows_backend three_rows) with [1%nat; 0%nat; 2%nat]
        by (vm_compute; reflexivity).
      apply perm_trans with [0%nat; 1%nat; 2%nat]; [apply perm_swap | apply Permutation_refl].
    + replace (argsort three_rows_backend three_rows) with [1%nat; 0%nat; 2%nat]
        by (vm_compute; reflexivity).
      apply SSorted_cons; [apply SSorted_cons; [apply SSorted_cons;
        [apply SSorted_nil | apply List.Forall_nil]|]|].
      * apply List.Forall_cons; [vm_compute; reflexivity | apply List.Forall_nil].
      * apply List.Forall_cons; [vm_compute; reflexivity|].
        apply List.Forall_cons; [vm_compute; reflexivity | apply List.Forall_nil].
  - exists results.
    replace [2%nat; 0%nat]
      with (firstn 3 (List.filter (positive_row three_rows)
                        (rev (argsort three_rows_backend three_rows))))
      by (vm_compute; reflexivity).
    repeat split; assumption.
Defined.

(** C3, the claim as worded fails: both rows of the example index have
    similarity 0.5 and [argsort] sorts stably; the reversal puts row 1
    before row 0, so with [top_k = 1] the second-indexed element is
    returned and the first-indexed one is dropped. *)
Lemma semantic_search_tie_last_index_first :
  argsort_ascending (@tie_backend spec_float _) [of_Q (1 # 2); of_Q (1 # 2)] /\
  index (@tie_search spec_float _) = [elem_ConfigError; elem_parse_config] /\
  map element (fst (semantic_search "config" 1 (@tie_search spec_float _)))
    = [elem_parse_config] /\
  map element (fst (semantic_search "config" 2 (@tie_search spec_float _)))
    = [elem_parse_config; elem_ConfigError] /\
  map score (fst (semantic_search "config" 2 (@tie_search spec_float _)))
    = [of_Q (1 # 2); of_Q (1 # 2)].
Proof.
  split.
  { split.
    - vm_compute. apply Permutation_refl.
    - replace (argsort (@tie_backend spec_float _) [of_Q (1 # 2); of_Q (1 # 2)])
        with [0%nat; 1%nat] by (vm_compute; reflexivity).
      apply SSorted_cons;
        [apply SSorted_cons; [apply SSorted_nil | apply List.Forall_nil]|].
      apply List.Forall_cons; [vm_compute; reflexivity | apply List.Forall_nil]. }
  split; [vm_compute; reflexivity|].
  split; [vm_compute; reflexivity|].
  split; vm_compute; reflexivity.
Qed.

(** ** Lookup by name *)

Section ByName.
Context {F : Type} `{ScoreArith F}.

Lemma search_by_name_loop_run name_q exact elems (acc : list (SearchResult F)) :
  (exact = false -> List.Forall (fun e => name e <> "") elems) ->
  search_by_name_loop name_q exact elems acc
  = Some (acc ++ map (name_hit name_q exact)
                     (List.filter (name_match name_q exact) elems)).
Proof.
  revert acc. induction elems as [|elem elems IH]; intros acc Hnames.
  - simpl. now rewrite app_nil_r.
  - assert (Hrest : exact = false -> List.Forall (fun e => name e <> "") elems).
    { intros E. exact (Forall_inv_tail (Hnames E)). }
    cbn [search_by_name_loop List.filter]. unfold name_match at 1.
    destruct exact.
    + destruct (String.eqb (lower (name elem)) (lower name_q));
        rewrite (IH _ Hrest); [|reflexivity].
      cbn [map]. now rewrite <- app_assoc.
    + destruct (contains (lower name_q) (lower (name elem)));
        [|now rewrite (IH _ Hrest)].
      assert (Hlen : (String.length (name elem) =? 0)%nat = false).
      { apply Nat.eqb_neq. specialize (Hnames eq_refl). apply Forall_inv in Hnames.
        destruct (name elem); [congruence | discriminate]. }
      rewrite Hlen, (IH _ Hrest). cbn [map]. now rewrite <- app_assoc.
Qed.
End ByName.

Lemma fltb_irrefl {F} `{ScoreOrder F} (x : F) : fltb x x = false.
Proof.
  destruct (fltb x x) eqn:E; [|reflexivity].
  pose proof (fltb_asym _ _ E). congruence.
Qed.

Lemma StronglySorted_constant_key {F} `{ScoreOrder F} {A} (key : A -> F) (c : F) l :
  List.Forall (fun x => key x = c) l -> StronglySorted (desc key) l.
Proof.
  induction l as [|x l IH]; intros Hall; constructor.
  - apply IH. now apply Forall_inv_tail in Hall.
  - pose proof (List.Forall_inv Hall) as Hx. apply Forall_inv_tail in Hall.
    eapply List.Forall_impl; [|exact Hall]. cbv beta. intros y Hy.
    unfold desc. rewrite Hx, Hy. apply fltb_irrefl.
Qed.

Lemma name_hits_numbers {F} `{ScoreOrder F} name_q (elems : list CodeElement) :
  List.Forall (fun e => name e <> "") elems ->
  List.Forall (fun r : SearchResult F => is_number (score r) = true)
              (map (name_hit name_q false) (List.filter (name_match name_q false) elems)).
Proof.
  intros Hnames. rewrite List.Forall_forall in *. intros r Hr.
  apply in_map_iff in Hr as (elem & <- & Helem).
  apply filter_In in Helem as [Helem _]. cbn [name_hit score].
  apply int_div_number. specialize (Hnames elem Helem).
  destruct (name elem); [congruence | discriminate].
Qed.

(** C8: [search_by_name] compares the lowercased names.  When no indexed
    element has an empty name, it returns, sorted by descending score
    (equal scores in index order), one result for each element that
    passes the test: in exact mode the elements whose lowercased name
    equals the lowercased query, each with score 1.0 and match type
    ["exact"], in index order; in substring mode the elements whose
    lowercased name contains the lowercased query, each with score
    [len(query) / len(element name)] and match type ["name"].  This
    holds of every ordered arithmetic, binary64 included. *)
Theorem search_by_name_sorted_matches {F} `{ScoreOrder F}
    (self : CodeSearch F) (name_q : string) (exact : bool) :
  (exact = false -> List.Forall (fun e => name e <> "") (index self)) ->
  let hits := map (name_hit name_q exact)
                  (List.filter (name_match name_q exact) (index self)) in
  exists results,
    search_by_name self name_q exact = Some results /\
    Permutation results hits /\
    StronglySorted (desc score) results /\
    (forall v, is_number v = true ->
               List.filter (tied score v) results = List.filter (tied score v) hits) /\
    (exact = true ->
       results = hits /\
       List.Forall (fun r => score r = of_Q 1 /\ match_type r = "exact" /\
                             lower (name (element r)) = lower name_q) results) /\
    (exact = false ->
       List.Forall (fun r => score r = int_div (String.length name_q)
                                               (String.length (name (element r))) /\
                             match_type r = "name" /\
                             contains (lower name_q) (lower (name (element r))) = true)
                   results).
Proof.
  intros Hnames hits. exists (sort_desc score hits).
  split.
  { unfold search_by_name. rewrite (search_by_name_loop_run _ _ _ _ Hnames).
    reflexivity. }
  assert (Hhits : List.Forall
            (fun r => r = name_hit name_q exact (element r) /\
                      name_match name_q exact (element r) = true) hits).
  { unfold hits. rewrite List.Forall_forall. intros r Hr.
    apply in_map_iff in Hr as (elem & <- & Helem).
    apply filter_In in Helem as [_ Hmatch].
    unfold name_hit. destruct exact; cbn [element]; auto. }
  assert (Eid : exact = true -> sort_desc score hits = hits).
  { intros ->. apply sort_desc_id. apply StronglySorted_constant_key with (of_Q 1).
    eapply List.Forall_impl; [|exact Hhits]. cbv beta. now intros r [-> _]. }
  split; [apply sort_desc_perm|].
  split.
  { destruct exact eqn:Ex.
    - rewrite (Eid eq_refl). apply StronglySorted_constant_key with (of_Q 1).
      eapply List.Forall_impl; [|exact Hhits]. cbv beta. now intros r [-> _].
    - exact (sort_desc_sorted score hits (name_hits_numbers name_q _ (Hnames eq_refl))). }
  split.
  { intros v Hv. exact (sort_desc_tied score v hits Hv). }
  split.
  - intros ->. rewrite (Eid eq_refl). split; [reflexivity|].
    eapply List.Forall_impl; [|exact Hhits]. cbv beta. intros r [-> Hmatch].
    cbn. repeat split. now apply String.eqb_eq.
  - intros ->. rewrite List.Forall_forall in *. intros r Hr.
    apply sort_desc_In in Hr. destruct (Hhits r Hr) as [-> Hmatch].
    cbn. auto.
Qed.

(** In binary64, on the index of four elements and the query
    ["CONFIG"]: ["load"] does not match, the two names of eleven
    characters score [6 / 11] and stay in index order, and
    ["parse_config"], indexed between them, scores [6 / 12] and goes
    last. *)
Lemma search_by_name_sorted_matches_witness :
  search_by_name (@ranked_search spec_float) "CONFIG" false
  = Some (map (name_hit "CONFIG" false)
              [elem_ConfigError; elem_config_path; elem_parse_config]) /\
  exists results,
    search_by_name (@ranked_search spec_float) "CONFIG" false = Some results /\
    Permutation results
      (map (name_hit "CONFIG" false)
           (List.filter (name_match "CONFIG" false) (index (@ranked_search spec_float)))) /\
    StronglySorted (desc score) results /\
    List.Forall (fun r => score r = int_div (String.length "CONFIG")
                                            (String.length (name (element r))) /\
                          match_type r = "name" /\
                          contains (lower "CONFIG") (lower (name (element r))) = true)
                results.
Proof.
  split; [vm_compute; reflexivity|].
  destruct (search_by_name_sorted_matches (@ranked_search spec_float) "CONFIG" false)
    as (results & Hres & Hperm & Hsorted & _ & _ & Hsub).
  - intros _. repeat constructor; discriminate.
  - exists results. repeat split; try assumption. exact (Hsub eq_refl).
Defined.

(** Outside the data model: an element without a name makes the
    substring mode divide by zero on the empty query. *)
Lemma search_by_name_nameless_raises :
  search_by_name (@nameless_search spec_float) "" false = None.
Proof. reflexivity. Qed.

(** ** The re-ranker *)

Lemma rank_results_sorted {F} `{ScoreOrder F} (results : list (SearchResult F)) query :
  List.Forall (fun r => is_number (score r) = true) (rank_results results query) ->
  StronglySorted (desc score) (rank_results results query).
Proof.
  intros Hnum. unfold rank_results in *. refine (sort_desc_sorted score _ _).
  rewrite List.Forall_forall in *. intros r Hr. apply Hnum. now apply sort_desc_In.
Qed.




(** * Further properties of the search core *)

(** ** Lookups by type and by codebase *)

Section RunFiltered.
Context {F : Type} `{ScoreArith F}.

Lemma pair_loop_run keywords elems (scored : list (CodeElement * F)) (self : CodeSearch F) :
  for_each elems
    (fun scored elem =>
       score ← score_call elem keywords;
       mret (if fltb (of_Q 0) score then scored ++ [(elem, score)] else scored))
    scored self
  = (scored ++ List.filter (fun p => fltb (of_Q 0) (snd p))
                           (map (fun elem => (elem, _score_element_keywords elem keywords))
                                elems),
     log_calls (map CallScore elems) self).
Proof.
  revert scored self. induction elems as [|elem elems IH]; intros scored self.
  - simpl. run_M. now rewrite app_nil_r, log_calls_nil.
  - simpl. unfold score_call at 1. run_M. rewrite IH, log_calls_app. simpl.
    destruct (fltb (of_Q 0) (_score_element_keywords elem keywords));
      [now rewrite <- app_assoc | reflexivity].
Qed.

Lemma pair_candidates tag keywords elems :
  map (fun '(elem, score) =>
         {| element := elem; score := score; match_type := tag;
            matched_terms := keywords |})
      (List.filter (fun p : CodeElement * F => fltb (of_Q 0) (snd p))
                   (map (fun elem => (elem, _score_element_keywords elem keywords)) elems))
  = map (retag tag) (keyword_candidates elems keywords).
Proof.
  unfold keyword_candidates. induction elems as [|elem elems IH]; [reflexivity|].
  simpl. destruct (fltb (of_Q 0) (_score_element_keywords elem keywords)); simpl;
    now rewrite IH.
Qed.

Lemma sort_desc_retag tag (l : list (SearchResult F)) :
  sort_desc score (map (retag tag) l) = map (retag tag) (sort_desc score l).
Proof.
  rewrite <- sort_desc_map. reflexivity.
Qed.

(** The scored branch of both lookups, as a function of the filtered
    elements. *)
Lemma scored_branch_run tag keywords elems top_k (self : CodeSearch F) :
  (scored ←
     for_each elems
       (fun scored elem =>
          score ← score_call elem keywords;
          mret (if fltb (of_Q 0) score then scored ++ [(elem, score)] else scored))
       [];
   mret (map (fun '(elem, score) =>
                {| element := elem; score := score; match_type := tag;
                   matched_terms := keywords |})
             (firstn top_k (sort_desc snd scored)))) self
  = (map (retag tag) (firstn top_k (sort_desc score (keyword_candidates elems keywords))),
     log_calls (map CallScore elems) self).
Proof.
  rewrite bind_run, pair_loop_run. cbn [fst snd app]. rewrite mret_run. f_equal.
  rewrite <- !firstn_map, <- sort_desc_retag, <- pair_candidates, <- sort_desc_map.
  f_equal. f_equal. apply sort_desc_ext. now intros [elem sc].
Qed.

Lemma search_by_type_run element_type query top_k (self : CodeSearch F) :
  let typed := List.filter (fun elem => String.eqb (type elem) element_type) (index self) in
  search_by_type element_type query top_k self =
  match truthy_query query with
  | None => (listing "type" typed top_k, self)
  | Some q =>
      (map (retag "type")
           (firstn top_k (sort_desc score (keyword_candidates typed (_extract_keywords q)))),
       log_calls (map CallScore typed) self)
  end.
Proof.
  cbv zeta. unfold search_by_type. rewrite bind_run, get_self_run. cbn [fst snd].
  destruct (truthy_query query) as [q|]; [|reflexivity].
  apply scored_branch_run.
Qed.

Lemma search_by_codebase_run codebase_q query top_k (self : CodeSearch F) :
  let own := List.filter (fun elem => String.eqb (codebase elem) codebase_q) (index self) in
  search_by_codebase codebase_q query top_k self =
  match truthy_query query with
  | None => (listing "codebase" own top_k, self)
  | Some q =>
      (map (retag "codebase")
           (firstn top_k (sort_desc score (keyword_candidates own (_extract_keywords q)))),
       log_calls (map CallScore own) self)
  end.
Proof.
  cbv zeta. unfold search_by_codebase. rewrite bind_run, get_self_run. cbn [fst snd].
  destruct (truthy_query query) as [q|]; [|reflexivity].
  apply scored_branch_run.
Qed.
End RunFiltered.

Lemma truthy_query_Some q : q <> "" -> truthy_query (Some q) = Some q.
Proof.
  intros Hq. unfold truthy_query. destruct (String.eqb q "") eqn:E; [|reflexivity].
  apply String.eqb_eq in E. contradiction.
Qed.

Lemma truthy_query_None query :
  query = None \/ query = Some "" -> truthy_query query = None.
Proof. now intros [->| ->]. Qed.

Lemma keyword_candidates_no_keywords {F} `{ScoreOrder F} elems :
  keyword_candidates elems [] = [].
Proof.
  unfold keyword_candidates. apply filter_nil_iff.
  rewrite List.Forall_forall. intros r Hr. apply in_map_iff in Hr as (elem & <- & _).
  unfold keyword_result, _score_element_keywords. cbn [score].
  destruct (truthy_docstring elem); apply fltb_irrefl.
Qed.

Lemma keyword_search_restrict {F} `{ScoreArith F} keep query top_k (self : CodeSearch F) :
  fst (keyword_search query top_k (restrict keep self)) =
  match _extract_keywords query with
  | [] => []
  | _ :: _ =>
      firstn top_k (sort_desc score
        (keyword_candidates (List.filter keep (index self)) (_extract_keywords query)))
  end.
Proof. rewrite keyword_search_run. now destruct (_extract_keywords query). Qed.

Lemma listing_spec {F} `{ScoreArith F} tag elems top_k :
  map element (listing tag elems top_k) = firstn top_k elems /\
  List.Forall (fun r : SearchResult F =>
                 score r = of_Q 1 /\ match_type r = tag /\ matched_terms r = [])
              (listing tag elems top_k) /\
  (length (listing tag elems top_k) <= top_k)%nat.
Proof.
  unfold listing. split; [|split].
  - rewrite map_map. cbn [element]. apply map_id.
  - rewrite List.Forall_forall. intros r Hr.
    now apply in_map_iff in Hr as (elem & <- & _).
  - rewrite length_map. apply firstn_le_length.
Qed.

(** X1: with a non-empty query, [search_by_type] returns what
    [keyword_search] returns on the index reduced to the elements of the
    requested type, each result tagged ["type"] instead of ["keyword"]. *)
Theorem search_by_type_is_keyword_search_on_type {F} `{ScoreOrder F}
    (self : CodeSearch F) (element_type q : string) (top_k : nat) :
  q <> "" ->
  fst (search_by_type element_type (Some q) top_k self)
  = map (retag "type")
        (fst (keyword_search q top_k
                (restrict (fun elem => String.eqb (type elem) element_type) self))).
Proof.
  intros Hq. rewrite search_by_type_run, (truthy_query_Some _ Hq). cbn [fst].
  rewrite keyword_search_restrict.
  destruct (_extract_keywords q); [|reflexivity].
  rewrite keyword_candidates_no_keywords. cbn [sort_desc fold_right].
  now rewrite firstn_nil.
Qed.

Lemma search_by_type_is_keyword_search_on_type_witness :
  fst (search_by_type "function" (Some "parse configuration") 5 (@lexical_search Q))
  = map (retag "type")
        (fst (keyword_search "parse configuration" 5
                (restrict (fun elem => String.eqb (type elem) "function") lexical_search))).
Proof.
  apply (search_by_type_is_keyword_search_on_type
           (@lexical_search Q) "function" "parse configuration" 5).
  discriminate.
Defined.

(** X2: without a query ([None] or the empty string) [search_by_type]
    lists the first [top_k] elements of the requested type in index
    order, each with score 1.0, match type ["type"] and no matched terms;
    it scores nothing and leaves the search object as it was. *)
Theorem search_by_type_without_query {F} `{ScoreArith F}
    (self : CodeSearch F) (element_type : string) (query : option string) (top_k : nat) :
  query = None \/ query = Some "" ->
  exists results,
    search_by_type element_type query top_k self = (results, self) /\
    map element results
      = firstn top_k (List.filter (fun elem => String.eqb (type elem) element_type)
                                  (index self)) /\
    List.Forall (fun r => type (element r) = element_type /\ score r = of_Q 1 /\
                          match_type r = "type" /\ matched_terms r = []) results /\
    (length results <= top_k)%nat.
Proof.
  intros Hq. eexists. rewrite search_by_type_run, (truthy_query_None _ Hq).
  split; [reflexivity|].
  destruct (listing_spec (F:=F) "type"
              (List.filter (fun elem => String.eqb (type elem) element_type) (index self))
              top_k) as (Helems & Hall & Hlen).
  split; [exact Helems|]. split; [|exact Hlen].
  rewrite List.Forall_forall in *. intros r Hr.
  split; [|now apply Hall].
  assert (Hin : In (element r) (map element (listing (F:=F) "type"
            (List.filter (fun elem => String.eqb (type elem) element_type) (index self))
            top_k))) by now apply in_map.
  rewrite Helems in Hin.
  assert (Hin' : In (element r)
            (List.filter (fun elem => String.eqb (type elem) element_type) (index self))).
  { rewrite <- (firstn_skipn top_k (List.filter _ _)). apply in_or_app. now left. }
  apply filter_In in Hin' as [_ Ht]. now apply String.eqb_eq.
Qed.

Lemma search_by_type_without_query_witness :
  exists results,
    search_by_type "class" (Some "") 5 (@lexical_search Q) = (results, lexical_search) /\
    map element results = [elem_ConfigError].
Proof.
  destruct (search_by_type_without_query (@lexical_search Q) "class" (Some "") 5)
    as (results & Hrun & Helems & _).
  - now right.
  - exists results. split; [exact Hrun | exact Helems].
Defined.

(** X3: a query that is not empty but yields no keyword (stop words and
    short tokens only) makes [search_by_type] return the empty list, not
    the listing of the no-query case; unlike [keyword_search] it still
    scores every element of the requested type. *)
Theorem search_by_type_stop_words_only {F} `{ScoreOrder F}
    (self : CodeSearch F) (element_type q : string) (top_k : nat) :
  q <> "" ->
  _extract_keywords q = [] ->
  search_by_type element_type (Some q) top_k self
  = ([], log_calls
           (map CallScore
                (List.filter (fun elem => String.eqb (type elem) element_type) (index self)))
           self).
Proof.
  intros Hq Hkw. rewrite search_by_type_run, (truthy_query_Some _ Hq), Hkw.
  rewrite keyword_candidates_no_keywords. cbn [sort_desc fold_right].
  now rewrite firstn_nil.
Qed.

Lemma search_by_type_stop_words_only_witness :
  search_by_type "class" (Some "how to use the") 5 (@lexical_search Q)
  = ([], log_calls [CallScore elem_ConfigError] lexical_search).
Proof.
  apply (search_by_type_stop_words_only (@lexical_search Q) "class" "how to use the" 5).
  - discriminate.
  - reflexivity.
Defined.

(** X4: with a non-empty query, [search_by_codebase] returns what
    [keyword_search] returns on the index reduced to the elements of the
    requested codebase, each result tagged ["codebase"]. *)
Theorem search_by_codebase_is_keyword_search_on_codebase {F} `{ScoreOrder F}
    (self : CodeSearch F) (codebase_q q : string) (top_k : nat) :
  q <> "" ->
  fst (search_by_codebase codebase_q (Some q) top_k self)
  = map (retag "codebase")
        (fst (keyword_search q top_k
                (restrict (fun elem => String.eqb (codebase elem) codebase_q) self))).
Proof.
  intros Hq. rewrite search_by_codebase_run, (truthy_query_Some _ Hq). cbn [fst].
  rewrite keyword_search_restrict.
  destruct (_extract_keywords q); [|reflexivity].
  rewrite keyword_candidates_no_keywords. cbn [sort_desc fold_right].
  now rewrite firstn_nil.
Qed.

Lemma search_by_codebase_is_keyword_search_on_codebase_witness :
  fst (search_by_codebase "core" (Some "parse configuration") 5 (@lexical_search Q))
  = map (retag "codebase")
        (fst (keyword_search "parse configuration" 5
                (restrict (fun elem => String.eqb (codebase elem) "core") lexical_search))).
Proof.
  apply (search_by_codebase_is_keyword_search_on_codebase
           (@lexical_search Q) "core" "parse configuration" 5).
  discriminate.
Defined.

(** X5: without a query [search_by_codebase] lists the first [top_k]
    elements of the requested codebase in index order, each with score
    1.0, match type ["codebase"] and no matched terms, and leaves the
    search object as it was. *)
Theorem search_by_codebase_without_query {F} `{ScoreArith F}
    (self : CodeSearch F) (codebase_q : string) (query : option string) (top_k : nat) :
  query = None \/ query = Some "" ->
  exists results,
    search_by_codebase codebase_q query top_k self = (results, self) /\
    map element results
      = firstn top_k (List.filter (fun elem => String.eqb (codebase elem) codebase_q)
                                  (index self)) /\
    List.Forall (fun r => codebase (element r) = codebase_q /\ score r = of_Q 1 /\
                          match_type r = "codebase" /\ matched_terms r = []) results /\
    (length results <= top_k)%nat.
Proof.
  intros Hq. eexists. rewrite search_by_codebase_run, (truthy_query_None _ Hq).
  split; [reflexivity|].
  destruct (listing_spec (F:=F) "codebase"
              (List.filter (fun elem => String.eqb (codebase elem) codebase_q) (index self))
              top_k) as (Helems & Hall & Hlen).
  split; [exact Helems|]. split; [|exact Hlen].
  rewrite List.Forall_forall in *. intros r Hr.
  split; [|now apply Hall].
  assert (Hin : In (element r) (map element (listing (F:=F) "codebase"
            (List.filter (fun elem => String.eqb (codebase elem) codebase_q) (index self))
            top_k))) by now apply in_map.
  rewrite Helems in Hin.
  assert (Hin' : In (element r)
            (List.filter (fun elem => String.eqb (codebase elem) codebase_q) (index self))).
  { rewrite <- (firstn_skipn top_k (List.filter _ _)). apply in_or_app. now left. }
  apply filter_In in Hin' as [_ Ht]. now apply String.eqb_eq.
Qed.

Lemma search_by_codebase_without_query_witness :
  exists results,
    search_by_codebase "core" None 1 (@lexical_search Q) = (results, lexical_search) /\
    map element results = [elem_ConfigError].
Proof.
  destruct (search_by_codebase_without_query (@lexical_search Q) "core" None 1)
    as (results & Hrun & Helems & _).
  - now left.
  - exists results. split; [exact Hrun | exact Helems].
Defined.

(** ** The cache key *)

(** The decimal rendering of a number holds no colon. *)
Lemma pretty_N_go_no_colon (x : N) (s : string) :
  (forall s1 s2, s <> (s1 ++ String ":"%char s2)%string) ->
  forall s1 s2, pretty_N_go x s <> (s1 ++ String ":"%char s2)%string.
Proof.
  revert s. induction (N.lt_wf_0 x) as [x _ IH]; intros s Hs.
  assert (x = 0 \/ 0 < x)%N as [->|Hx] by lia.
  - now rewrite pretty_N_go_0.
  - rewrite pretty_N_go_step by exact Hx. apply IH.
    { now apply N.div_lt. }
    intros [|c s1] s2; simpl.
    + intros [= Hc _]. revert Hc. unfold pretty_N_char.
      repeat case_match; discriminate.
    + intros [= _ Hrest]. exact (Hs _ _ Hrest).
Qed.

Lemma pretty_nat_no_colon (n : nat) s1 s2 : pretty n <> (s1 ++ String ":"%char s2)%string.
Proof.
  unfold pretty, pretty_nat, pretty, pretty_N.
  destruct (decide (N.of_nat n = 0%N)).
  - destruct s1 as [|c [|c' s1]]; discriminate.
  - apply pretty_N_go_no_colon. intros [|c s1'] s2'; discriminate.
Qed.

(** A text cut at its last colon: the two parts are determined. *)
Lemma split_at_last_colon (q q' d d' : string) :
  (forall s1 s2, d <> (s1 ++ String ":"%char s2)%string) ->
  (forall s1 s2, d' <> (s1 ++ String ":"%char s2)%string) ->
  (q ++ ":" ++ d = q' ++ ":" ++ d')%string -> q = q' /\ d = d'.
Proof.
  intros Hd Hd'. revert q'. induction q as [|c q IH]; intros [|c' q'] E; simpl in E.
  - injection E as E. now split.
  - injection E as _ E. destruct (Hd _ _ E).
  - injection E as _ E. symmetry in E. destruct (Hd' _ _ E).
  - injection E as -> E. destruct (IH _ E) as [-> ->]. now split.
Qed.

(** X6: the cache key determines the query and [top_k]: two distinct
    pairs never share a cache entry, whatever colons and digits the query
    holds. *)
Theorem cache_key_inj (query query' : string) (top_k top_k' : nat) :
  cache_key query top_k = cache_key query' top_k' ->
  query = query' /\ top_k = top_k'.
Proof.
  unfold cache_key. intros E. simpl in E. injection E as E.
  apply split_at_last_colon in E as [-> E]; try apply pretty_nat_no_colon.
  split; [reflexivity|]. now apply (inj pretty).
Qed.

Lemma cache_key_inj_witness : "a:1" = "a:1" /\ 2%nat = 2%nat.
Proof. apply (cache_key_inj "a:1" "a:1" 2 2). reflexivity. Defined.

(** ** What the queries read and what they change *)

Lemma same_config_refl {F} (s : CodeSearch F) : same_config s s.
Proof. now repeat split. Qed.

Lemma same_config_sym {F} (s1 s2 : CodeSearch F) : same_config s1 s2 -> same_config s2 s1.
Proof. intros (? & ? & ? & ?). now repeat split. Qed.

Lemma same_config_trans {F} (s1 s2 s3 : CodeSearch F) :
  same_config s1 s2 -> same_config s2 s3 -> same_config s1 s3.
Proof. intros (? & ? & ? & ?) (? & ? & ? & ?). repeat split; congruence. Qed.

Lemma same_config_log_calls {F} cs (s : CodeSearch F) : same_config s (log_calls cs s).
Proof. now repeat split. Qed.

Lemma same_config_set_cache {F} cache (s : CodeSearch F) : same_config s (set_cache cache s).
Proof. now repeat split. Qed.

Section Frames.
Context {F : Type} `{ScoreArith F}.

Lemma keyword_search_state query top_k (self : CodeSearch F) :
  exists cs, snd (keyword_search query top_k self) = log_calls cs self.
Proof.
  rewrite keyword_search_run. destruct (_extract_keywords query); eexists; reflexivity.
Qed.

Lemma keyword_search_config query top_k (s1 s2 : CodeSearch F) :
  index s1 = index s2 ->
  fst (keyword_search query top_k s1) = fst (keyword_search query top_k s2).
Proof.
  intros E. rewrite !keyword_search_run, E. now destruct (_extract_keywords query).
Qed.

Lemma semantic_loop_config (s1 s2 : CodeSearch F) query sims top_indices acc :
  index s1 = index s2 -> element_texts s1 = element_texts s2 ->
  semantic_loop s1 query sims top_indices acc = semantic_loop s2 query sims top_indices acc.
Proof.
  intros Ei Et. revert acc.
  induction top_indices as [|idx rest IH]; intros acc; [reflexivity|].
  cbn [semantic_loop]. rewrite Ei, Et.
  destruct (sims !! idx) as [sim|]; [|reflexivity]. cbn [mbind option_bind].
  destruct (fltb (of_Q 0) sim); [|apply IH].
  destruct (index s2 !! idx); [|reflexivity]. cbn [mbind option_bind].
  destruct (element_texts s2 !! idx); [|reflexivity]. cbn [mbind option_bind].
  apply IH.
Qed.

Lemma semantic_try_config vb (s1 s2 : CodeSearch F) query top_k :
  index s1 = index s2 -> element_texts s1 = element_texts s2 ->
  semantic_try vb s1 query top_k = semantic_try vb s2 query top_k.
Proof.
  intros Ei Et. unfold semantic_try. destruct (similarities vb query); [|reflexivity].
  cbn [mbind option_bind]. now apply semantic_loop_config.
Qed.

(** The three ways a call of [semantic_search] can go. *)
Lemma semantic_search_cases query top_k (self : CodeSearch F) :
  semantic_search query top_k self =
  let logged := log_calls [CallSemantic query top_k] self in
  match (if use_tfidf self then vectorizer self else None) with
  | Some vb =>
      match semantic_try vb self query top_k with
      | Some results => (results, logged)
      | None => keyword_search query top_k logged
      end
  | None => keyword_search query top_k logged
  end.
Proof.
  unfold semantic_search. rewrite bind_run. cbn [record_call fst snd].
  rewrite bind_run, get_self_run. cbn [fst snd].
  change (use_tfidf (log_calls [CallSemantic query top_k] self)) with (use_tfidf self).
  change (vectorizer (log_calls [CallSemantic query top_k] self)) with (vectorizer self).
  destruct (use_tfidf self); cbn [negb]; [|reflexivity].
  destruct (vectorizer self) as [vb|]; [|reflexivity].
  rewrite semantic_try_log_calls.
  now destruct (semantic_try vb self query top_k).
Qed.

Lemma semantic_search_state query top_k (self : CodeSearch F) :
  exists cs, snd (semantic_search query top_k self) = log_calls cs self.
Proof.
  rewrite semantic_search_cases. cbv zeta.
  destruct (if use_tfidf self then vectorizer self else None) as [vb|].
  - destruct (semantic_try vb self query top_k).
    + eexists. reflexivity.
    + destruct (keyword_search_state query top_k
                  (log_calls [CallSemantic query top_k] self)) as [cs ->].
      eexists. apply log_calls_app.
  - destruct (keyword_search_state query top_k
                (log_calls [CallSemantic query top_k] self)) as [cs ->].
    eexists. apply log_calls_app.
Qed.

Lemma semantic_search_config query top_k (s1 s2 : CodeSearch F) :
  same_config s1 s2 ->
  fst (semantic_search query top_k s1) = fst (semantic_search query top_k s2).
Proof.
  intros (Ei & Eu & Ev & Et). rewrite !semantic_search_cases. cbv zeta.
  rewrite Eu, Ev.
  destruct (if use_tfidf s2 then vectorizer s2 else None) as [vb|].
  - rewrite (semantic_try_config vb s1 s2) by assumption.
    destruct (semantic_try vb s2 query top_k); [reflexivity|].
    now apply keyword_search_config.
  - now apply keyword_search_config.
Qed.

(** The fresh computation of [hybrid_search], branch by branch. *)
Lemma hybrid_fresh_cases query top_k (self : CodeSearch F) :
  hybrid_fresh query top_k self =
  if use_tfidf self then
    let s1 := snd (semantic_search query (top_k * 2) self) in
    let s2 := snd (keyword_search query (top_k * 2) s1) in
    (firstn top_k
       (rank_results
          (_combine_results (fst (semantic_search query (top_k * 2) self))
                            (fst (keyword_search query (top_k * 2) s1)))
          query),
     log_calls [CallCombine; CallRank query] s2)
  else keyword_search query top_k self.
Proof.
  unfold hybrid_fresh. rewrite bind_run, get_self_run. cbn [fst snd].
  destruct (use_tfidf self); [|reflexivity].
  rewrite bind_run, bind_run. rewrite bind_run. cbn [record_call fst snd].
  rewrite bind_run. cbn [fst snd]. rewrite mret_run. cbn [record_call snd].
  now rewrite log_calls_app.
Qed.

Lemma hybrid_fresh_state query top_k (self : CodeSearch F) :
  exists cs, snd (hybrid_fresh query top_k self) = log_calls cs self.
Proof.
  rewrite hybrid_fresh_cases. destruct (use_tfidf self).
  - cbv zeta. cbn [snd].
    destruct (semantic_search_state query (top_k * 2) self) as [cs1 E1]. rewrite E1.
    destruct (keyword_search_state query (top_k * 2) (log_calls cs1 self)) as [cs2 ->].
    eexists. now rewrite !log_calls_app.
  - apply keyword_search_state.
Qed.

Lemma hybrid_fresh_config query top_k (s1 s2 : CodeSearch F) :
  same_config s1 s2 ->
  fst (hybrid_fresh query top_k s1) = fst (hybrid_fresh query top_k s2).
Proof.
  intros Hc. pose proof Hc as (Ei & Eu & Ev & Et).
  rewrite !hybrid_fresh_cases, Eu. destruct (use_tfidf s2).
  - cbv zeta. cbn [fst].
    rewrite (semantic_search_config _ _ _ _ Hc). f_equal. f_equal. f_equal.
    apply keyword_search_config.
    destruct (semantic_search_state query (top_k * 2) s1) as [cs1 ->].
    destruct (semantic_search_state query (top_k * 2) s2) as [cs2 ->].
    exact Ei.
  - now apply keyword_search_config.
Qed.
End Frames.

Lemma log_calls_cache {F} cs (s : CodeSearch F) : query_cache (log_calls cs s) = query_cache s.
Proof. reflexivity. Qed.

(** X7: caching is transparent.  On a search object whose cache is
    coherent, [hybrid_search] returns what the fresh computation returns,
    hit or miss, and leaves the cache coherent; the cache of a new object
    is coherent. *)
Theorem hybrid_search_keeps_cache_coherent {F} `{ScoreArith F}
    (self : CodeSearch F) (query : string) (top_k : nat) :
  cache_coherent self ->
  fst (hybrid_search query top_k self) = fst (hybrid_fresh query top_k self) /\
  cache_coherent (snd (hybrid_search query top_k self)).
Proof.
  intros Hco.
  destruct (query_cache self !! cache_key query top_k) as [cached|] eqn:E.
  - rewrite (hybrid_search_hit _ _ _ _ E). cbn [fst snd].
    split; [now apply Hco | exact Hco].
  - rewrite (hybrid_search_miss _ _ _ E). cbn [fst snd].
    split; [reflexivity|].
    destruct (hybrid_fresh_state query top_k self) as [cs Es]. rewrite Es.
    rewrite log_calls_cache.
    assert (Hcfg : same_config self
              (set_cache (<[cache_key query top_k := fst (hybrid_fresh query top_k self)]>
                            (query_cache self)) (log_calls cs self))).
    { eapply same_config_trans; [apply same_config_log_calls | apply same_config_set_cache]. }
    intros q' k' cached' Hget. cbn [set_cache query_cache] in Hget.
    rewrite <- (hybrid_fresh_config q' k' _ _ Hcfg).
    destruct (decide (cache_key query top_k = cache_key q' k')) as [Ek|Ek].
    + rewrite Ek, lookup_insert_eq in Hget. injection Hget as <-.
      now apply cache_key_inj in Ek as [-> ->].
    + rewrite lookup_insert_ne in Hget by exact Ek. now apply Hco.
Qed.

Lemma hybrid_search_keeps_cache_coherent_witness :
  fst (hybrid_search "parse configuration" 5 (@lexical_search Q))
  = fst (hybrid_fresh "parse configuration" 5 (@lexical_search Q)).
Proof.
  destruct (hybrid_search_keeps_cache_coherent (@lexical_search Q) "parse configuration" 5)
    as [Hres _].
  - intros q k cached Hget. discriminate Hget.
  - exact Hres.
Defined.

(** X8: [hybrid_search] writes nothing but its own cache entry: the
    index, the backend and the texts stay as they are, and the entry of
    every other key is untouched. *)
Theorem hybrid_search_frame {F} `{ScoreArith F}
    (self : CodeSearch F) (query : string) (top_k : nat) (key : string) :
  key <> cache_key query top_k ->
  same_config self (snd (hybrid_search query top_k self)) /\
  query_cache (snd (hybrid_search query top_k self)) !! key = query_cache self !! key.
Proof.
  intros Hkey.
  destruct (query_cache self !! cache_key query top_k) as [cached|] eqn:E.
  - rewrite (hybrid_search_hit _ _ _ _ E). split; [apply same_config_refl | reflexivity].
  - rewrite (hybrid_search_miss _ _ _ E). cbn [snd].
    destruct (hybrid_fresh_state query top_k self) as [cs ->]. split.
    + eapply same_config_trans; [apply same_config_log_calls | apply same_config_set_cache].
    + cbn [set_cache query_cache log_calls]. now apply lookup_insert_ne.
Qed.

Lemma hybrid_search_frame_witness :
  query_cache (snd (hybrid_search "parse configuration" 5 (@lexical_search Q)))
    !! "hybrid:parse configuration:3"
  = query_cache (@lexical_search Q) !! "hybrid:parse configuration:3".
Proof.
  apply (hybrid_search_frame (@lexical_search Q) "parse configuration" 5).
  discriminate.
Defined.

(** X9: [keyword_search] and [semantic_search] never write to the cache
    and change nothing a later query reads. *)
Theorem scorers_leave_cache_alone {F} `{ScoreArith F}
    (self : CodeSearch F) (query : string) (top_k : nat) :
  query_cache (snd (keyword_search query top_k self)) = query_cache self /\
  same_config self (snd (keyword_search query top_k self)) /\
  query_cache (snd (semantic_search query top_k self)) = query_cache self /\
  same_config self (snd (semantic_search query top_k self)).
Proof.
  destruct (keyword_search_state query top_k self) as [cs1 ->].
  destruct (semantic_search_state query top_k self) as [cs2 ->].
  repeat split.
Qed.

(** X10: [clear_cache] empties the cache and touches nothing else; the
    next [hybrid_search] finds no entry, computes afresh and stores the
    result. *)
Theorem clear_cache_forces_recomputation {F} `{ScoreArith F}
    (self : CodeSearch F) (query : string) (top_k : nat) :
  let cleared := snd (clear_cache self) in
  query_cache cleared = ∅ /\
  same_config self cleared /\
  calls cleared = calls self /\
  cache_coherent cleared /\
  fst (hybrid_search query top_k cleared) = fst (hybrid_fresh query top_k self) /\
  query_cache (snd (hybrid_search query top_k cleared)) !! cache_key query top_k
    = Some (fst (hybrid_fresh query top_k self)).
Proof.
  cbv zeta. unfold clear_cache. cbn [snd].
  assert (Hmiss : query_cache (set_cache ∅ self) !! cache_key query top_k = None)
    by apply lookup_empty.
  assert (Hcfg : same_config self (set_cache ∅ self)) by apply same_config_set_cache.
  split; [reflexivity|]. split; [exact Hcfg|]. split; [reflexivity|]. split.
  { intros q k cached Hget. cbn [set_cache query_cache] in Hget.
    rewrite lookup_empty in Hget. discriminate. }
  rewrite (hybrid_search_miss _ _ _ Hmiss). cbn [fst snd set_cache query_cache].
  rewrite <- (hybrid_fresh_config _ _ _ _ Hcfg).
  split; [reflexivity | apply lookup_insert_eq].
Qed.

(** X11: [semantic_search] never fails.  Without TF-IDF, without a
    fitted vectoriser, or when the vector query raises, it returns the
    results of [keyword_search] for the same query and [top_k]. *)
Theorem semantic_search_falls_back {F} `{ScoreArith F}
    (self : CodeSearch F) (query : string) (top_k : nat) :
  (use_tfidf self = false \/ vectorizer self = None \/
   exists vb, vectorizer self = Some vb /\ semantic_try vb self query top_k = None) ->
  fst (semantic_search query top_k self) = fst (keyword_search query top_k self).
Proof.
  intros Hcase. rewrite semantic_search_cases. cbv zeta.
  assert (Hkw : fst (keyword_search query top_k (log_calls [CallSemantic query top_k] self))
                = fst (keyword_search query top_k self))
    by now apply keyword_search_config.
  destruct Hcase as [Hoff|[Hnone|(vb & Hvb & Hraise)]].
  - now rewrite Hoff.
  - rewrite Hnone. now destruct (use_tfidf self).
  - rewrite Hvb. destruct (use_tfidf self); [|exact Hkw]. now rewrite Hraise.
Qed.

Lemma semantic_search_falls_back_witness :
  fst (semantic_search "parse configuration" 5 (@lexical_search Q))
  = fst (keyword_search "parse configuration" 5 (@lexical_search Q)).
Proof.
  apply (semantic_search_falls_back (@lexical_search Q) "parse configuration" 5).
  now left.
Defined.

(** ** More on the combiner *)

Section DictKeys.
Context {V : Type}.

Lemma dict_get_None k (d : list (string * V)) : dict_get k d = None <-> ~ In k (map fst d).
Proof.
  induction d as [|[k' v] d IH]; simpl; [tauto|].
  destruct (String.eqb k k') eqn:E.
  - apply String.eqb_eq in E. subst. split; [discriminate | intros Hn; destruct Hn; now left].
  - apply String.eqb_neq in E. rewrite IH. split.
    + intros Hn [->|Hin]; [congruence | contradiction].
    + intros Hn Hin. apply Hn. now right.
Qed.

Lemma dict_set_fresh k (v : V) d : dict_get k d = None -> dict_set k v d = d ++ [(k, v)].
Proof.
  induction d as [|[k' v'] d IH]; simpl; [reflexivity|].
  destruct (String.eqb k k'); [discriminate|]. intros Hget. now rewrite IH.
Qed.

Lemma dict_set_keys k (v : V) d :
  map fst (dict_set k v d)
  = match dict_get k d with
    | Some _ => map fst d
    | None => map fst d ++ [k]
    end.
Proof.
  induction d as [|[k' v'] d IH]; simpl; [reflexivity|].
  destruct (String.eqb k k') eqn:E; simpl.
  - apply String.eqb_eq in E. now subst.
  - rewrite IH. now destruct (dict_get k d).
Qed.

Lemma dict_get_Some_key k (v : V) d : dict_get k d = Some v -> In k (map fst d).
Proof.
  induction d as [|[k' v'] d IH]; simpl; [discriminate|].
  destruct (String.eqb k k') eqn:E; [|right; now apply IH].
  apply String.eqb_eq in E. now left.
Qed.

Lemma dict_set_In k (v : V) d k' v' :
  In (k', v') (dict_set k v d) -> (k' = k /\ v' = v) \/ In (k', v') d.
Proof.
  induction d as [|[k0 v0] d IH]; simpl.
  - intros [[= <- <-]|[]]. now left.
  - destruct (String.eqb k k0); simpl.
    + intros [[= <- <-]|Hin]; [now left | right; now right].
    + intros [Heq|Hin]; [right; now left|].
      destruct (IH Hin) as [Hl|Hr]; [now left | right; now right].
Qed.

Lemma dict_get_of_In k (v : V) d :
  List.NoDup (map fst d) -> In (k, v) d -> dict_get k d = Some v.
Proof.
  induction d as [|[k' v'] d IH]; simpl; [tauto|].
  intros Hnd [[= -> ->]|Hin].
  - now rewrite String.eqb_refl.
  - apply NoDup_cons_iff in Hnd as [Hnotin Hnd].
    destruct (String.eqb k k') eqn:E; [|now apply IH].
    apply String.eqb_eq in E. subst k'. destruct Hnotin.
    apply in_map_iff. now exists (k, v).
Qed.
End DictKeys.

Section CombineKeys.
Context {F : Type} `{ScoreArith F}.
Implicit Types (d : list (string * SearchResult F)) (r : SearchResult F)
  (semantic keyword : list (SearchResult F)).

Lemma dict_wf_set k r d : dict_wf d -> result_key r = k -> dict_wf (dict_set k r d).
Proof.
  intros [Hnd Hall] Hk. split.
  - rewrite dict_set_keys. destruct (dict_get k d) eqn:E; [exact Hnd|].
    apply dict_get_None in E. apply List.NoDup_app; [exact Hnd | |].
    + repeat constructor. intros [].
    + intros x Hx [<-|[]]. contradiction.
  - rewrite List.Forall_forall in *. intros [k' v'] Hin.
    apply dict_set_In in Hin as [[-> ->]|Hin]; [exact Hk | now apply Hall].
Qed.

Lemma merge_key existing r : result_key (merge existing r) = result_key existing.
Proof. reflexivity. Qed.

Lemma dict_get_key k d r : dict_wf d -> dict_get k d = Some r -> result_key r = k.
Proof.
  intros [_ Hall]. induction d as [|[k' v] d IH]; simpl; [discriminate|].
  apply Forall_cons_iff in Hall as [Hk Hall].
  destruct (String.eqb k k') eqn:E.
  - intros [= <-]. apply String.eqb_eq in E. now subst.
  - now apply IH.
Qed.

Lemma seed_step_wf d r : dict_wf d -> dict_wf (seed_step d r).
Proof. intros Hwf. now apply dict_wf_set. Qed.

Lemma keyword_step_wf d r : dict_wf d -> dict_wf (keyword_step d r).
Proof.
  intros Hwf. unfold keyword_step.
  destruct (dict_get (result_key r) d) as [existing|] eqn:E; apply dict_wf_set; trivial.
  rewrite merge_key. now apply dict_get_key with d.
Qed.

Lemma seed_step_keys k d r :
  In k (map fst (seed_step d r)) <-> In k (map fst d) \/ k = result_key r.
Proof.
  unfold seed_step. rewrite dict_set_keys.
  destruct (dict_get (result_key r) d) eqn:E.
  - split; [now left|]. intros [Hin| ->]; [exact Hin|].
    now apply dict_get_Some_key in E.
  - rewrite in_app_iff. simpl. intuition.
Qed.

Lemma keyword_step_keys k d r :
  In k (map fst (keyword_step d r)) <-> In k (map fst d) \/ k = result_key r.
Proof.
  unfold keyword_step. destruct (dict_get (result_key r) d) eqn:E.
  - rewrite dict_set_keys, E. split; [now left|]. intros [Hin| ->]; [exact Hin|].
    now apply dict_get_Some_key in E.
  - rewrite dict_set_keys, E, in_app_iff. simpl. intuition.
Qed.

Lemma fold_steps_wf_keys (step : list (string * SearchResult F) -> SearchResult F ->
                                 list (string * SearchResult F)) l d :
  (forall d r, dict_wf d -> dict_wf (step d r)) ->
  (forall k d r, In k (map fst (step d r)) <-> In k (map fst d) \/ k = result_key r) ->
  dict_wf d ->
  dict_wf (fold_left step l d) /\
  forall k, In k (map fst (fold_left step l d)) <->
            In k (map fst d) \/ In k (map result_key l).
Proof.
  intros Hwf Hkeys. revert d. induction l as [|r l IH]; intros d Hd.
  - simpl. split; [exact Hd | intros k; tauto].
  - cbn [fold_left]. destruct (IH (step d r) (Hwf _ _ Hd)) as [Hwf' Hk'].
    split; [exact Hwf'|]. intros k. rewrite Hk', Hkeys. simpl. intuition.
Qed.

Lemma combine_dict_wf semantic keyword :
  let d := fold_left keyword_step keyword (fold_left seed_step semantic []) in
  dict_wf d /\
  forall k, In k (map fst d) <->
            In k (map result_key semantic) \/ In k (map result_key keyword).
Proof.
  cbv zeta.
  destruct (fold_steps_wf_keys seed_step semantic [] seed_step_wf seed_step_keys)
    as [Hwf1 Hk1]; [split; constructor|].
  destruct (fold_steps_wf_keys keyword_step keyword _ keyword_step_wf keyword_step_keys Hwf1)
    as [Hwf2 Hk2].
  split; [exact Hwf2|]. intros k. rewrite Hk2, Hk1. simpl. tauto.
Qed.

Lemma dict_wf_values d : dict_wf d -> map result_key (map snd d) = map fst d.
Proof.
  intros [_ Hall]. rewrite map_map. apply map_ext_in. intros p Hp.
  rewrite List.Forall_forall in Hall. now apply Hall.
Qed.
End CombineKeys.

Section CombineMore.
Context {F : Type} `{ScoreArith F}.
Implicit Types (d : list (string * SearchResult F)) (r : SearchResult F)
  (semantic keyword : list (SearchResult F)).

Lemma seed_steps_get_ne k d semantic :
  List.Forall (fun p => result_key p <> k) semantic ->
  dict_get k (fold_left seed_step semantic d) = dict_get k d.
Proof.
  revert d. induction semantic as [|r semantic IH]; intros d Hall; [reflexivity|].
  cbn [fold_left]. rewrite IH by now apply Forall_inv_tail in Hall.
  rewrite seed_step_get. apply Forall_inv in Hall.
  destruct (String.eqb (result_key r) k) eqn:E; [|reflexivity].
  apply String.eqb_eq in E. contradiction.
Qed.

Lemma fresh_steps (step : list (string * SearchResult F) -> SearchResult F ->
                          list (string * SearchResult F)) l d :
  (forall d r, dict_get (result_key r) d = None -> step d r = d ++ [(result_key r, r)]) ->
  List.NoDup (map fst d ++ map result_key l) ->
  fold_left step l d = d ++ map (fun r => (result_key r, r)) l.
Proof.
  intros Hstep. revert d. induction l as [|r l IH]; intros d Hnd.
  - simpl. now rewrite app_nil_r.
  - cbn [fold_left map]. rewrite Hstep.
    + rewrite IH; [now rewrite <- app_assoc|].
      rewrite map_app. cbn [map fst]. now rewrite <- app_assoc.
    + apply dict_get_None. intros Hin.
      apply NoDup_remove_2 in Hnd. apply Hnd, in_or_app. now left.
Qed.

Lemma seed_step_fresh d r :
  dict_get (result_key r) d = None -> seed_step d r = d ++ [(result_key r, r)].
Proof. apply dict_set_fresh. Qed.

Lemma keyword_step_fresh d r :
  dict_get (result_key r) d = None -> keyword_step d r = d ++ [(result_key r, r)].
Proof. intros E. unfold keyword_step. rewrite E. now apply dict_set_fresh. Qed.
End CombineMore.

(** X12: the combiner's output holds each identity key once, and its
    keys are those of the semantic results together with those of the
    keyword results: no element is lost and none is listed twice. *)
Theorem combine_keys_distinct_and_complete {F} `{ScoreArith F}
    (semantic keyword : list (SearchResult F)) :
  List.NoDup (map result_key (_combine_results semantic keyword)) /\
  (forall k, In k (map result_key (_combine_results semantic keyword)) <->
             In k (map result_key semantic) \/ In k (map result_key keyword)) /\
  (length (_combine_results semantic keyword) <= length semantic + length keyword)%nat.
Proof.
  destruct (combine_dict_wf semantic keyword) as [Hwf Hkeys].
  unfold _combine_results. rewrite (dict_wf_values _ Hwf).
  split; [apply Hwf|]. split; [exact Hkeys|].
  rewrite length_map, <- (length_map fst).
  rewrite <- (length_map result_key semantic), <- (length_map result_key keyword),
    <- length_app.
  apply NoDup_incl_length; [apply Hwf|].
  intros k Hk. apply in_or_app. now apply Hkeys.
Qed.

(** X13: when all results handed to the combiner have pairwise distinct
    identity keys, nothing is merged: the output is the semantic results
    followed by the keyword results, each unchanged. *)
Theorem combine_without_collisions {F} `{ScoreArith F}
    (semantic keyword : list (SearchResult F)) :
  List.NoDup (map result_key (semantic ++ keyword)) ->
  _combine_results semantic keyword = semantic ++ keyword.
Proof.
  intros Hnd. rewrite map_app in Hnd. unfold _combine_results.
  rewrite (fresh_steps seed_step semantic []).
  - rewrite (fresh_steps keyword_step keyword).
    + cbn [app]. rewrite <- map_app, map_map. cbn [snd]. apply map_id.
    + apply keyword_step_fresh.
    + cbn [app]. rewrite map_map. cbn [fst]. exact Hnd.
  - apply seed_step_fresh.
  - cbn [map app]. now apply NoDup_app_remove_r in Hnd.
Qed.

Lemma combine_without_collisions_witness :
  _combine_results [@result_load Q _] [result_config_path]
  = [result_load] ++ [result_config_path].
Proof.
  apply (combine_without_collisions [@result_load Q _] [result_config_path]).
  vm_compute. repeat constructor; simpl; intuition discriminate.
Defined.

(** X14: semantic results of the same identity key are not merged: the
    one seeded last replaces the earlier ones.  If no keyword result has
    the key either, that last result is in the output unchanged and is
    the only output entry of its key. *)
Theorem combine_semantic_last_wins {F} `{ScoreArith F}
    (s1 s2 keyword : list (SearchResult F)) (r : SearchResult F) :
  List.Forall (fun p => result_key p <> result_key r) s2 ->
  List.Forall (fun p => result_key p <> result_key r) keyword ->
  let out := _combine_results (s1 ++ r :: s2) keyword in
  In r out /\
  forall r', In r' out -> result_key r' = result_key r -> r' = r.
Proof.
  intros Hs2 Hkw out.
  destruct (combine_dict_wf (s1 ++ r :: s2) keyword) as [Hwf _].
  set (d := fold_left keyword_step keyword (fold_left seed_step (s1 ++ r :: s2) [])) in *.
  assert (Hget : dict_get (result_key r) d = Some r).
  { unfold d. rewrite keyword_steps_get_ne by exact Hkw.
    rewrite fold_left_app. cbn [fold_left].
    rewrite seed_steps_get_ne by exact Hs2.
    rewrite seed_step_get. now rewrite String.eqb_refl. }
  split; [now apply dict_get_In with (result_key r)|].
  intros r' Hin Hkey. unfold out, _combine_results in Hin. fold d in Hin.
  apply in_map_iff in Hin as ([k' v] & Hv & Hin). cbn [snd] in Hv. subst v.
  assert (Hk' : k' = result_key r').
  { destruct Hwf as [_ Hall]. rewrite List.Forall_forall in Hall.
    symmetry. exact (Hall _ Hin). }
  subst k'. rewrite Hkey in Hin.
  apply (dict_get_of_In _ _ _ (proj1 Hwf)) in Hin. congruence.
Qed.

Lemma combine_semantic_last_wins_witness :
  In keyword_06 (_combine_results ([semantic_04] ++ keyword_06 :: []) []).
Proof.
  apply (combine_semantic_last_wins [semantic_04] [] [] keyword_06); constructor.
Defined.

(** ** More on the re-ranker *)

(** X15: [rank_results] only re-scores and reorders: its output is a
    rearrangement of the input with each score multiplied by the boost of
    its element; elements, match types and matched terms are carried
    over and no result is dropped or added.  The output is sorted by
    descending score when none of its scores is NaN (a NaN score stays
    where the insertion left it and the scores around it need not
    descend). *)
Theorem rank_results_rearranges {F} `{ScoreOrder F}
    (results : list (SearchResult F)) (query : string) :
  Permutation (rank_results results query) (map (boosted (lower query)) results) /\
  (List.Forall (fun r => is_number (score r) = true) (rank_results results query) ->
   StronglySorted (desc score) (rank_results results query)) /\
  Permutation (map element (rank_results results query)) (map element results) /\
  Permutation (map matched_terms (rank_results results query)) (map matched_terms results) /\
  Permutation (map match_type (rank_results results query)) (map match_type results) /\
  length (rank_results results query) = length results.
Proof.
  assert (Hperm : Permutation (rank_results results query)
                              (map (boosted (lower query)) results))
    by apply sort_desc_perm.
  split; [exact Hperm|]. split; [apply rank_results_sorted|].
  split; [|split; [|split]].
  - rewrite (Permutation_map element Hperm), map_map. reflexivity.
  - rewrite (Permutation_map matched_terms Hperm), map_map. reflexivity.
  - rewrite (Permutation_map match_type Hperm), map_map. reflexivity.
  - rewrite (Permutation_length Hperm). apply length_map.
Qed.

(** In binary64 with the query ["config"]: the scores 1.0 and 6.0 become
    1.0 and 9.0 and the two results change places. *)
Lemma rank_results_rearranges_witness :
  map (fun r => (name (element r), score r))
      (rank_results [@result_load_low spec_float _; result_config_path] "config")
  = [("config_path", of_Q 9); ("load", of_Q 1)] /\
  Permutation (rank_results [@result_load_low spec_float _; result_config_path] "config")
              (map (boosted (lower "config")) [result_load_low; result_config_path]) /\
  StronglySorted (desc score)
    (rank_results [@result_load_low spec_float _; result_config_path] "config").
Proof.
  split; [vm_compute; reflexivity|].
  destruct (rank_results_rearranges [@result_load_low spec_float _; result_config_path]
              "config") as (Hperm & Hsorted & _).
  split; [exact Hperm|]. apply Hsorted.
  replace (rank_results [@result_load_low spec_float _; result_config_path] "config")
    with [boosted (lower "config") (@result_config_path spec_float _);
          boosted (lower "config") result_load_low]
    by (vm_compute; reflexivity).
  apply List.Forall_cons; [vm_compute; reflexivity|].
  apply List.Forall_cons; [vm_compute; reflexivity | apply List.Forall_nil].
Defined.

Lemma boost_of_ordinary query_lower elem :
  B64.ordinary (boost_of (F := spec_float) query_lower elem) = true.
Proof.
  unfold boost_of.
  destruct (String.eqb query_lower (lower (name elem)));
    [|destruct (contains query_lower (lower (name elem)))];
    (destruct (truthy_docstring elem) as [d|];
       [destruct (contains query_lower (lower d))|]);
    destruct (mem_string (type elem) ["class"; "function"]);
    destruct (mem_string (codebase elem) ["dspy"; "dspy_cli"]);
    vm_compute; reflexivity.
Qed.

Lemma boosted_nonneg query_lower (r : SearchResult spec_float) :
  B64.nonneg (score r) = true -> B64.nonneg (score (boosted query_lower r)) = true.
Proof.
  intros Hr. unfold boosted. cbn [score element].
  apply (SFmul_nonneg (score r) (boost_of query_lower (element r)) Hr).
  apply boost_of_ordinary.
Qed.

(** X16: in binary64 the boost of an element is a positive finite
    number, at least 1.0 and at most the product of all four factors as
    the code multiplies them, which is the float just above 3.432 (it
    prints as 3.4320000000000004); so one pass of the re-ranker turns a
    score that is not negative into a score that is not negative, never
    into NaN. *)
Theorem boost_bounds_binary64 (query_lower : string) (r : SearchResult spec_float) :
  let boost := boost_of (F := spec_float) query_lower (element r) in
  B64.ordinary boost = true /\
  fltb boost (of_Q 1) = false /\
  fltb max_boost boost = false /\
  fltb (of_Q (3432 # 1000)) (@max_boost spec_float _) = true /\
  (forall x : spec_float,
     fltb (of_Q (3432 # 1000)) x = true -> fltb x max_boost = false) /\
  (B64.nonneg (score r) = true -> B64.nonneg (score (boosted query_lower r)) = true).
Proof.
  cbv zeta.
  split; [apply boost_of_ordinary|].
  split.
  { unfold boost_of.
    destruct (String.eqb query_lower (lower (name (element r))));
      [|destruct (contains query_lower (lower (name (element r))))];
      (destruct (truthy_docstring (element r)) as [d|];
         [destruct (contains query_lower (lower d))|]);
      destruct (mem_string (type (element r)) ["class"; "function"]);
      destruct (mem_string (codebase (element r)) ["dspy"; "dspy_cli"]);
      vm_compute; reflexivity. }
  split.
  { unfold boost_of.
    destruct (String.eqb query_lower (lower (name (element r))));
      [|destruct (contains query_lower (lower (name (element r))))];
      (destruct (truthy_docstring (element r)) as [d|];
         [destruct (contains query_lower (lower d))|]);
      destruct (mem_string (type (element r)) ["class"; "function"]);
      destruct (mem_string (codebase (element r)) ["dspy"; "dspy_cli"]);
      vm_compute; reflexivity. }
  split; [vm_compute; reflexivity|].
  split; [|apply boosted_nonneg].
  intros x Hx.
  replace (@of_Q spec_float _ (3432 # 1000)) with (S754_finite false 7728176960567771 (-51))
    in Hx by (vm_compute; reflexivity).
  replace (@max_boost spec_float _) with (S754_finite false 7728176960567772 (-51))
    by (vm_compute; reflexivity).
  cbn [fltb Binary64.arith] in *.
  apply SFltb_rank in Hx as (_ & Hnx & Hlt).
  destruct (SFltb x (S754_finite false 7728176960567772 (-51))) eqn:E; [|reflexivity].
  apply SFltb_rank in E as (_ & _ & Hlt').
  exfalso. destruct x as [s|[]| |[] m e]; simpl in Hlt, Hlt'; lia.
Qed.

(** The class [Predict] of codebase [dspy] and the query ["predict"]
    earn all four factors. *)
Lemma boost_bounds_binary64_witness :
  boost_of (F := spec_float) "predict" elem_Predict = max_boost /\
  B64.nonneg
    (score (boosted "predict"
              {| element := elem_Predict; score := of_Q (1 # 2);
                 match_type := "semantic"; matched_terms := ["predict"] |})) = true.
Proof.
  split; [vm_compute; reflexivity|].
  destruct (boost_bounds_binary64 "predict"
              {| element := elem_Predict; score := of_Q (1 # 2);
                 match_type := "semantic"; matched_terms := ["predict"] |})
    as (_ & _ & _ & _ & _ & Hnonneg).
  apply Hnonneg. vm_compute. reflexivity.
Defined.

(** ** More on keyword extraction *)

Lemma lower_ascii_idem c : lower_ascii (lower_ascii c) = lower_ascii c.
Proof.
  destruct c as [[] [] [] [] [] [] [] []]; reflexivity.
Qed.

Lemma lower_idem s : lower (lower s) = lower s.
Proof.
  induction s as [|c s IH]; simpl; [reflexivity|]. now rewrite lower_ascii_idem, IH.
Qed.

Lemma lower_app s t : lower (s ++ t)%string = (lower s ++ lower t)%string.
Proof. induction s as [|c s IH]; simpl; [reflexivity|]. now rewrite IH. Qed.

Lemma lower_fixed_iff s :
  lower s = s <-> string_forallb (fun c => Ascii.eqb (lower_ascii c) c) s = true.
Proof.
  induction s as [|c s IH]; simpl; [tauto|].
  rewrite andb_true_iff, <- IH, Ascii.eqb_eq. split.
  - intros [= Hc Hs]. now split.
  - intros [-> ->]. reflexivity.
Qed.

Lemma string_forallb_app p s t :
  string_forallb p (s ++ t)%string = string_forallb p s && string_forallb p t.
Proof.
  induction s as [|c s IH]; simpl; [reflexivity|]. now rewrite IH, andb_assoc.
Qed.

Lemma string_forallb_lower s :
  string_forallb (fun c => Ascii.eqb (lower_ascii c) c) (lower s) = true.
Proof. apply lower_fixed_iff, lower_idem. Qed.

(** Each token is a non-empty run of word characters, and inherits every
    property that all characters of the text have. *)
Lemma findall_words_from_tokens (p : ascii -> bool) cur s :
  string_forallb is_word_char cur = true ->
  string_forallb p cur = true -> string_forallb p s = true ->
  List.Forall (fun w => w <> EmptyString /\ string_forallb is_word_char w = true /\
                        string_forallb p w = true)
              (findall_words_from cur s).
Proof.
  revert cur. induction s as [|c s IH]; intros cur Hw Hp Hs; simpl.
  - destruct cur; simpl; repeat constructor; try discriminate; assumption.
  - simpl in Hs. apply andb_true_iff in Hs as [Hc Hs].
    destruct (is_word_char c) eqn:Ec.
    + apply IH; [| |exact Hs]; rewrite string_forallb_app; simpl;
        rewrite ?Hw, ?Hp, ?Ec, ?Hc; reflexivity.
    + apply Forall_app. split; [|now apply IH].
      destruct cur; simpl; repeat constructor; try discriminate; assumption.
Qed.

Lemma extracted_keywords_pass (query : string) :
  List.Forall (fun kw => (3 <= String.length kw)%nat /\
                         mem_string kw stop_words = false /\
                         string_forallb is_word_char kw = true /\
                         lower kw = kw)
              (_extract_keywords query).
Proof.
  unfold _extract_keywords. rewrite List.Forall_forall. intros kw Hkw.
  apply filter_In in Hkw as [Hin Hpass].
  apply andb_true_iff in Hpass as [Hstop Hlen].
  apply negb_true_iff in Hstop. apply Nat.ltb_lt in Hlen.
  pose proof (findall_words_from_tokens (fun c => Ascii.eqb (lower_ascii c) c)
                EmptyString (lower query) eq_refl eq_refl (string_forallb_lower query))
    as Htok.
  rewrite List.Forall_forall in Htok. destruct (Htok kw Hin) as (_ & Hword & Hlow).
  repeat split; try assumption. now apply lower_fixed_iff.
Qed.

(** X17: every extracted keyword has at least three characters, is not
    a stop word, consists of letters, digits and underscores only and is
    in lower case; extraction does not depend on the case of the
    query. *)
Theorem _extract_keywords_wellformed (query : string) :
  List.Forall (fun kw => (3 <= String.length kw)%nat /\
                         mem_string kw stop_words = false /\
                         string_forallb is_word_char kw = true /\
                         lower kw = kw)
              (_extract_keywords query) /\
  _extract_keywords (lower query) = _extract_keywords query.
Proof.
  split; [apply extracted_keywords_pass|].
  unfold _extract_keywords. now rewrite lower_idem.
Qed.

Lemma string_app_nil_r (s : string) : (s ++ EmptyString)%string = s.
Proof.
  induction s as [|c s IH]; [reflexivity|].
  change (String c (s ++ EmptyString)%string = String c s). now rewrite IH.
Qed.

Lemma string_app_snoc (s : string) c t :
  ((s ++ String c EmptyString) ++ t)%string = (s ++ String c t)%string.
Proof.
  induction s as [|c' s IH]; [reflexivity|].
  change (String c' ((s ++ String c EmptyString) ++ t)%string
          = String c' (s ++ String c t)%string).
  now rewrite IH.
Qed.

Lemma findall_words_from_run cur w rest :
  string_forallb is_word_char w = true ->
  findall_words_from cur (w ++ rest)%string = findall_words_from (cur ++ w)%string rest.
Proof.
  revert cur. induction w as [|c w IH]; intros cur Hw.
  - now rewrite string_app_nil_r.
  - simpl in Hw. apply andb_true_iff in Hw as [Hc Hw].
    change (findall_words_from cur (String c (w ++ rest)%string)
            = findall_words_from (cur ++ String c w)%string rest).
    cbn [findall_words_from]. rewrite Hc, IH by exact Hw.
    now rewrite string_app_snoc.
Qed.

(** Words joined by single spaces are found again, one by one. *)
Lemma findall_words_concat (ws : list string) :
  List.Forall (fun w => w <> EmptyString /\ string_forallb is_word_char w = true) ws ->
  findall_words (String.concat " " ws) = ws.
Proof.
  unfold findall_words. induction ws as [|w ws IH]; intros Hall; [reflexivity|].
  apply Forall_cons_iff in Hall as [[Hne Hw] Hall].
  assert (Hflush : flush w = [w]) by (destruct w; [contradiction | reflexivity]).
  destruct ws as [|w' ws].
  - cbn [String.concat]. rewrite <- (string_app_nil_r w) at 1.
    rewrite findall_words_from_run by exact Hw. exact Hflush.
  - change (String.concat " " (w :: w' :: ws))
      with (w ++ " " ++ String.concat " " (w' :: ws))%string.
    rewrite findall_words_from_run by exact Hw.
    change (findall_words_from (EmptyString ++ w)
              (" " ++ String.concat " " (w' :: ws))%string)
      with (flush w ++ findall_words_from EmptyString (String.concat " " (w' :: ws))).
    now rewrite Hflush, IH.
Qed.

Lemma lower_concat (ws : list string) :
  List.Forall (fun w => lower w = w) ws ->
  lower (String.concat " " ws) = String.concat " " ws.
Proof.
  induction ws as [|w ws IH]; intros Hall; [reflexivity|].
  apply Forall_cons_iff in Hall as [Hw Hall].
  destruct ws as [|w' ws]; [exact Hw|].
  change (String.concat " " (w :: w' :: ws))
    with (w ++ " " ++ String.concat " " (w' :: ws))%string.
  rewrite !lower_app, Hw, IH by exact Hall. reflexivity.
Qed.

Lemma filter_all {A} (f : A -> bool) l :
  List.Forall (fun x => f x = true) l -> List.filter f l = l.
Proof.
  induction l as [|x l IH]; intros Hall; [reflexivity|].
  apply Forall_cons_iff in Hall as [Hx Hall]. simpl. now rewrite Hx, IH.
Qed.

(** X18: extraction is idempotent: the extracted keywords, joined by
    spaces and submitted as a query, are extracted again unchanged. *)
Theorem _extract_keywords_of_keywords (query : string) :
  _extract_keywords (String.concat " " (_extract_keywords query))
  = _extract_keywords query.
Proof.
  pose proof (extracted_keywords_pass query) as Hall.
  generalize dependent (_extract_keywords query). intros kws Hall.
  unfold _extract_keywords. cbv zeta.
  rewrite lower_concat, findall_words_concat.
  - apply filter_all. eapply List.Forall_impl; [|exact Hall]. cbv beta.
    intros kw (Hlen & Hstop & _ & _). rewrite Hstop. cbn [negb andb].
    now apply Nat.ltb_lt.
  - eapply List.Forall_impl; [|exact Hall]. cbv beta.
    intros kw (Hlen & _ & Hw & _). split; [|exact Hw].
    intros ->. simpl in Hlen. lia.
  - eapply List.Forall_impl; [|exact Hall]. cbv beta. now intros kw (_ & _ & _ & Hl).
Qed.

(** ** Which elements score *)

Lemma count_matches_pos field_lower keywords :
  (0 < count_matches field_lower keywords)%nat <->
  exists kw, In kw keywords /\ contains kw field_lower = true.
Proof.
  unfold count_matches. induction keywords as [|kw keywords IH]; simpl.
  - split; [lia | intros (kw & [] & _)].
  - destruct (contains kw field_lower) eqn:E; simpl.
    + split; [intros _; exists kw; auto | lia].
    + rewrite IH. split.
      * intros (kw' & Hin & Hc). exists kw'. auto.
      * intros (kw' & [->|Hin] & Hc); [congruence | exists kw'; auto].
Qed.

Lemma inject_nat_cases (n : nat) :
  (n = 0%nat /\ inject_Z (Z.of_nat n) == 0)%Q \/
  ((0 < n)%nat /\ (1 <= inject_Z (Z.of_nat n))%Q).
Proof.
  destruct n as [|n]; [left; split; reflexivity|]. right. split; [lia|].
  unfold Qle, inject_Z. simpl. lia.
Qed.

Lemma weighted_matches_pos elem keywords :
  (0 < weighted_matches elem keywords)%Q <->
  (0 < count_matches (lower (name elem)) keywords
       + docstring_matches elem keywords
       + count_matches (lower (signature elem)) keywords
       + count_matches (lower (code elem)) keywords)%nat.
Proof.
  unfold weighted_matches.
  destruct (inject_nat_cases (count_matches (lower (name elem)) keywords)) as [[-> Ha]|[Ha Ha']],
           (inject_nat_cases (docstring_matches elem keywords)) as [[-> Hb]|[Hb Hb']],
           (inject_nat_cases (count_matches (lower (signature elem)) keywords))
             as [[-> Hc]|[Hc Hc']],
           (inject_nat_cases (count_matches (lower (code elem)) keywords))
             as [[-> Hd]|[Hd Hd']];
    split; intros Hpos; try lia; try lra; (simpl in Hpos; lia || lra).
Qed.

(** X19: in exact arithmetic an element has a positive lexical score,
    and so is a candidate of [keyword_search], exactly when some keyword
    of the list is a substring of its lowercased name, non-empty
    docstring, signature or code. *)
Theorem lexical_score_positive_iff_keyword_occurs
    (elem : CodeElement) (keywords : list string) :
  fltb (of_Q 0) (@_score_element_keywords Q _ elem keywords) = true <->
  exists kw, In kw keywords /\ keyword_occurs elem kw = true.
Proof.
  rewrite Exact_ltb_lt.
  assert (Hscore : (@_score_element_keywords Q _ elem keywords
                    == weighted_matches elem keywords)%Q).
  { rewrite _score_element_keywords_counts, !add_times_exact.
    unfold weighted_matches. simpl of_Q. ring. }
  simpl of_Q. rewrite Hscore, weighted_matches_pos.
  unfold keyword_occurs, docstring_matches. split.
  - intros Hpos.
    assert (Hcase : (0 < count_matches (lower (name elem)) keywords)%nat \/
                    (0 < match truthy_docstring elem with
                         | Some d => count_matches (lower d) keywords
                         | None => 0
                         end)%nat \/
                    (0 < count_matches (lower (signature elem)) keywords)%nat \/
                    (0 < count_matches (lower (code elem)) keywords)%nat) by lia.
    destruct Hcase as [Hc|[Hc|[Hc|Hc]]].
    + apply count_matches_pos in Hc as (kw & Hin & Hc). exists kw. now rewrite Hc.
    + destruct (truthy_docstring elem) as [d|]; [|lia].
      apply count_matches_pos in Hc as (kw & Hin & Hc). exists kw.
      rewrite Hc. split; [exact Hin|]. now rewrite orb_true_r.
    + apply count_matches_pos in Hc as (kw & Hin & Hc). exists kw.
      rewrite Hc. split; [exact Hin|]. now rewrite orb_true_r.
    + apply count_matches_pos in Hc as (kw & Hin & Hc). exists kw.
      rewrite Hc. split; [exact Hin|]. now rewrite orb_true_r.
  - intros (kw & Hin & Hocc).
    apply orb_true_iff in Hocc as [Hocc|Hcode].
    2:{ assert (0 < count_matches (lower (code elem)) keywords)%nat
          by (apply count_matches_pos; eauto). lia. }
    apply orb_true_iff in Hocc as [Hocc|Hsig].
    2:{ assert (0 < count_matches (lower (signature elem)) keywords)%nat
          by (apply count_matches_pos; eauto). lia. }
    apply orb_true_iff in Hocc as [Hname|Hdoc].
    + assert (0 < count_matches (lower (name elem)) keywords)%nat
        by (apply count_matches_pos; eauto). lia.
    + destruct (truthy_docstring elem) as [d|]; [|discriminate].
      assert (0 < count_matches (lower d) keywords)%nat
        by (apply count_matches_pos; eauto). lia.
Qed.

(** ** Result counts *)

(** X20: asking [keyword_search] for fewer results gives a prefix of the
    longer answer: the ranking of the first [top_k] results does not
    depend on how many more are requested. *)
Theorem keyword_search_prefix {F} `{ScoreArith F}
    (self : CodeSearch F) (query : string) (top_k top_k' : nat) :
  (top_k <= top_k')%nat ->
  fst (keyword_search query top_k self)
  = firstn top_k (fst (keyword_search query top_k' self)).
Proof.
  intros Hle. rewrite !keyword_search_run.
  destruct (_extract_keywords query); cbn [fst]; [now rewrite firstn_nil|].
  rewrite firstn_firstn. f_equal. lia.
Qed.

Lemma keyword_search_prefix_witness :
  fst (keyword_search "parse configuration" 1 (@lexical_search Q))
  = firstn 1 (fst (keyword_search "parse configuration" 5 (@lexical_search Q))).
Proof.
  apply (keyword_search_prefix (@lexical_search Q) "parse configuration" 1 5). lia.
Defined.

Lemma Forall2_filter_firstn_length {A B} (P : A -> B -> Prop) f n l l' :
  Forall2 P (List.filter f (firstn n l)) l' -> (length l' <= n)%nat.
Proof.
  intros Hall. rewrite <- (Forall2_length _ _ _ Hall).
  etransitivity; [apply filter_length_le | apply firstn_le_length].
Qed.

(** X21: whatever the vector backend answers, the vector path of
    [semantic_search] returns at most [top_k] results, each for an
    indexed element, with a score strictly above zero and match type
    ["semantic"]. *)
Theorem semantic_search_vector_results {F} `{ScoreArith F}
    (self : CodeSearch F) (vb : VectorBackend F) (query : string) (top_k : nat)
    (results : list (SearchResult F)) :
  use_tfidf self = true ->
  vectorizer self = Some vb ->
  semantic_try vb self query top_k = Some results ->
  fst (semantic_search query top_k self) = results /\
  (length results <= top_k)%nat /\
  List.Forall (fun r => In (element r) (index self) /\
                        fltb (of_Q 0) (score r) = true /\
                        match_type r = "semantic") results.
Proof.
  intros Hon Hvb Htry.
  split; [now rewrite (semantic_search_run _ _ _ _ _ Hon Hvb Htry)|].
  unfold semantic_try in Htry.
  destruct (similarities vb query) as [sims|]; [|discriminate].
  cbn [mbind option_bind] in Htry.
  apply semantic_loop_rows in Htry as (new & -> & Hrows). cbn [app].
  split; [exact (Forall2_filter_firstn_length _ _ _ _ _ Hrows)|].
  induction Hrows as [|idx r idxs rs Hrow _ IH]; constructor; [|exact IH].
  destruct Hrow as (Helem & _ & Hpos & Htype & _).
  split; [|now split]. apply list_elem_of_In. now apply list_elem_of_lookup_2 in Helem.
Qed.

Lemma semantic_search_vector_results_witness :
  (length (fst (semantic_search "config" 1 (@tie_search Q _))) <= 1)%nat.
Proof.
  destruct (semantic_search_vector_results (@tie_search Q _) tie_backend "config" 1
              [ {| element := elem_parse_config; score := (1 # 2)%Q;
                   match_type := "semantic"; matched_terms := ["config"] |} ])
    as (Hres & Hlen & _).
  - reflexivity.
  - reflexivity.
  - reflexivity.
  - rewrite Hres. exact Hlen.
Defined.

Lemma boosted_key {F} `{ScoreArith F} query_lower (r : SearchResult F) :
  result_key (boosted query_lower r) = result_key r.
Proof. reflexivity. Qed.

Lemma NoDup_firstn {A} n (l : list A) : List.NoDup l -> List.NoDup (firstn n l).
Proof.
  intros Hnd. rewrite <- (firstn_skipn n l) in Hnd. now apply NoDup_app_remove_r in Hnd.
Qed.

Section Invariant.
Context {F : Type} `{ScoreArith F}.
Variable P : SearchResult F -> Prop.
Hypothesis merge_P : forall existing result, P existing -> P result -> P (merge existing result).

Lemma dict_set_Forall k r (d : list (string * SearchResult F)) :
  P r -> List.Forall (fun p => P (snd p)) d ->
  List.Forall (fun p => P (snd p)) (dict_set k r d).
Proof.
  intros Hr. induction d as [|[k' v'] d IH]; simpl; intros Hd.
  - constructor; [exact Hr | constructor].
  - apply Forall_cons_iff in Hd as [Hv Hd].
    destruct (String.eqb k k'); constructor; auto.
Qed.

Lemma dict_get_Forall k r (d : list (string * SearchResult F)) :
  List.Forall (fun p => P (snd p)) d -> dict_get k d = Some r -> P r.
Proof.
  induction d as [|[k' v'] d IH]; simpl; intros Hd Hget; [discriminate|].
  apply Forall_cons_iff in Hd as [Hv Hd].
  destruct (String.eqb k k'); [now injection Hget as <- | now apply IH].
Qed.

Lemma seed_steps_Forall semantic d :
  List.Forall P semantic -> List.Forall (fun p => P (snd p)) d ->
  List.Forall (fun p => P (snd p)) (fold_left seed_step semantic d).
Proof.
  revert d. induction semantic as [|r l IH]; intros d Hl Hd; [exact Hd|].
  apply Forall_cons_iff in Hl as [Hr Hl]. cbn [fold_left].
  apply IH; [exact Hl|]. now apply dict_set_Forall.
Qed.

Lemma keyword_steps_Forall keyword d :
  List.Forall P keyword -> List.Forall (fun p => P (snd p)) d ->
  List.Forall (fun p => P (snd p)) (fold_left keyword_step keyword d).
Proof.
  revert d. induction keyword as [|r l IH]; intros d Hl Hd; [exact Hd|].
  apply Forall_cons_iff in Hl as [Hr Hl]. cbn [fold_left].
  apply IH; [exact Hl|]. unfold keyword_step.
  destruct (dict_get (result_key r) d) as [existing|] eqn:Eget.
  - apply dict_set_Forall; [|exact Hd]. apply merge_P; [|exact Hr].
    exact (dict_get_Forall _ _ _ Hd Eget).
  - now apply dict_set_Forall.
Qed.

(** What holds of every result handed in and is kept by a merge holds of
    every combined result. *)
Lemma combine_Forall semantic keyword :
  List.Forall P semantic -> List.Forall P keyword ->
  List.Forall P (_combine_results semantic keyword).
Proof.
  intros Hs Hk. unfold _combine_results.
  assert (Hd : List.Forall (fun p => P (snd p))
                 (fold_left keyword_step keyword (fold_left seed_step semantic []))).
  { apply keyword_steps_Forall; [exact Hk|].
    apply seed_steps_Forall; [exact Hs | constructor]. }
  rewrite List.Forall_forall in *. intros r Hr.
  apply in_map_iff in Hr as (p & <- & Hp). now apply Hd.
Qed.
End Invariant.

Section Positive.
Context {F : Type} `{ScoreArith F}.

Lemma keyword_search_positive query top_k (self : CodeSearch F) :
  List.Forall (fun r => fltb (of_Q 0) (score r) = true)
              (fst (keyword_search query top_k self)).
Proof.
  rewrite keyword_search_run.
  destruct (_extract_keywords query) as [|kw kws]; cbn [fst]; [constructor|].
  apply firstn_Forall. rewrite List.Forall_forall. intros r Hr.
  apply sort_desc_In in Hr.
  apply keyword_candidates_spec in Hr as (elem & _ & -> & Hpos). exact Hpos.
Qed.

Lemma semantic_search_positive query top_k (self : CodeSearch F) :
  List.Forall (fun r => fltb (of_Q 0) (score r) = true)
              (fst (semantic_search query top_k self)).
Proof.
  rewrite semantic_search_cases. cbv zeta.
  destruct (if use_tfidf self then vectorizer self else None) as [vb|];
    [|apply keyword_search_positive].
  destruct (semantic_try vb self query top_k) as [results|] eqn:Htry;
    [|apply keyword_search_positive].
  cbn [fst]. unfold semantic_try in Htry.
  destruct (similarities vb query) as [sims|]; [|discriminate].
  cbn [mbind option_bind] in Htry.
  apply semantic_loop_rows in Htry as (new & -> & Hrows). cbn [app].
  induction Hrows as [|idx r idxs rs Hrow _ IH]; constructor; [|exact IH].
  now destruct Hrow as (_ & _ & Hpos & _).
Qed.
End Positive.

Lemma merge_nonneg (existing result : SearchResult spec_float) :
  B64.nonneg (score existing) = true -> B64.nonneg (score result) = true ->
  B64.nonneg (score (merge existing result)) = true.
Proof.
  intros He Hr. unfold merge. cbn [score].
  apply (SFmul_nonneg
           (SFdiv Binary64.prec Binary64.emax
              (SFadd Binary64.prec Binary64.emax (score existing) (score result))
              (of_Q 2))
           (of_Q (3 # 2))); [|vm_compute; reflexivity].
  apply (SFdiv_nonneg
           (SFadd Binary64.prec Binary64.emax (score existing) (score result))
           (of_Q 2)); [|vm_compute; reflexivity].
  now apply SFadd_nonneg.
Qed.

(** In binary64 no score of a fresh hybrid ranking is negative or NaN. *)
Lemma hybrid_ranking_nonneg (self : CodeSearch spec_float) query top_k :
  List.Forall (fun r => B64.nonneg (score r) = true)
    (rank_results
       (_combine_results
          (fst (semantic_search query top_k self))
          (fst (keyword_search query top_k (snd (semantic_search query top_k self)))))
       query).
Proof.
  assert (Hpos : forall l : list (SearchResult spec_float),
             List.Forall (fun r => fltb (of_Q 0) (score r) = true) l ->
             List.Forall (fun r => B64.nonneg (score r) = true) l).
  { intros l Hl. eapply List.Forall_impl; [|exact Hl]. cbv beta.
    intros r Hr. now apply SFltb_pos_nonneg. }
  pose proof (combine_Forall (fun r => B64.nonneg (score r) = true) merge_nonneg _ _
                (Hpos _ (semantic_search_positive query top_k self))
                (Hpos _ (keyword_search_positive query top_k
                           (snd (semantic_search query top_k self))))) as Hcomb.
  unfold rank_results. rewrite List.Forall_forall in *. intros r Hr.
  apply sort_desc_In in Hr. apply in_map_iff in Hr as (r0 & <- & Hr0).
  apply boosted_nonneg. now apply Hcomb.
Qed.

(** X22: in binary64 and with TF-IDF in use, what [hybrid_search]
    computes on a cache miss holds at most [top_k] results, sorted by
    descending score, no two of them with the same identity key, and no
    score among them is negative or NaN. *)
Theorem hybrid_fresh_sorted_distinct
    (self : CodeSearch spec_float) (query : string) (top_k : nat) :
  use_tfidf self = true ->
  let results := fst (hybrid_fresh query top_k self) in
  (length results <= top_k)%nat /\
  StronglySorted (desc score) results /\
  List.NoDup (map result_key results) /\
  List.Forall (fun r => B64.nonneg (score r) = true) results.
Proof.
  intros Hon results. unfold results. rewrite hybrid_fresh_cases, Hon. cbv zeta. cbn [fst].
  pose proof (hybrid_ranking_nonneg self query (top_k * 2)) as Hnonneg.
  split; [apply firstn_le_length|].
  split.
  { apply StronglySorted_firstn, rank_results_sorted.
    eapply List.Forall_impl; [|exact Hnonneg]. cbv beta.
    intros r Hr. now apply nonneg_number. }
  split; [|now apply firstn_Forall].
  rewrite <- firstn_map. apply NoDup_firstn.
  set (combined := _combine_results _ _).
  assert (Hperm : Permutation (map result_key (rank_results combined query))
                              (map result_key combined)).
  { unfold rank_results.
    rewrite (Permutation_map result_key (sort_desc_perm score _)), map_map.
    reflexivity. }
  apply (Permutation_NoDup (Permutation_sym Hperm)).
  destruct (combine_dict_wf (fst (semantic_search query (top_k * 2) self))
              (fst (keyword_search query (top_k * 2)
                      (snd (semantic_search query (top_k * 2) self))))) as [Hwf _].
  unfold combined, _combine_results. rewrite (dict_wf_values _ Hwf). apply Hwf.
Qed.

(** On the three rows of similarities 0.25, 0.0 and 0.5 and the query
    ["config"]: both strategies find [ConfigError] and [config_path],
    the merged scores are 3.9375 and 4.125, and the boosts 1.5 * 1.2 and
    1.5 put [ConfigError] first. *)
Lemma hybrid_fresh_sorted_distinct_witness :
  map (fun r => (name (element r), match_type r))
      (fst (hybrid_fresh "config" 2 three_rows_search))
  = [("ConfigError", "hybrid"); ("config_path", "hybrid")] /\
  (length (fst (hybrid_fresh "config" 2 three_rows_search)) <= 2)%nat /\
  StronglySorted (desc score) (fst (hybrid_fresh "config" 2 three_rows_search)) /\
  List.NoDup (map result_key (fst (hybrid_fresh "config" 2 three_rows_search))) /\
  List.Forall (fun r => B64.nonneg (score r) = true)
              (fst (hybrid_fresh "config" 2 three_rows_search)).
Proof.
  split; [vm_compute; reflexivity|].
  apply (hybrid_fresh_sorted_distinct three_rows_search "config" 2).
  reflexivity.
Defined.

(** ** More on the lookup by name *)

Lemma prefix_length (s1 s2 : string) :
  String.prefix s1 s2 = true -> (String.length s1 <= String.length s2)%nat.
Proof.
  revert s2. induction s1 as [|a s1 IH]; intros s2 Hp; simpl; [lia|].
  destruct s2 as [|b s2]; simpl in Hp; [discriminate|].
  destruct (ascii_dec a b); [|discriminate]. apply IH in Hp. simpl. lia.
Qed.

Lemma contains_length (sub s : string) :
  contains sub s = true -> (String.length sub <= String.length s)%nat.
Proof.
  induction s as [|c s IH]; cbn [contains]; intros Hc.
  - apply orb_true_iff in Hc as [Hp|]; [|discriminate].
    now apply prefix_length in Hp.
  - apply orb_true_iff in Hc as [Hp|Hc].
    + now apply prefix_length in Hp.
    + apply IH in Hc. simpl. lia.
Qed.

(** Lowercasing ASCII text keeps its length. *)
Lemma lower_length (s : string) :
  ascii_only s = true -> String.length (lower s) = String.length s.
Proof.
  intros _. induction s as [|c s IH]; simpl; [reflexivity|]. now rewrite IH.
Qed.

Lemma truediv_nonneg a b : b <> O -> B64.nonneg (Binary64.truediv a b) = true.
Proof.
  intros Hb. unfold Binary64.truediv.
  destruct a as [|a], b as [|b]; try congruence; try reflexivity.
  apply signed_false_nonneg.
  exact (SFdiv_finite_signed false _ 0 false _ 0).
Qed.

(** X23: in binary64, for an ASCII query and an index of non-empty ASCII
    names, [search_by_name] in substring mode succeeds; the query is
    never longer than a matched name and every score is the rounded
    quotient of the two lengths, which is not negative and not NaN. *)
Theorem search_by_name_scores_nonneg (self : CodeSearch spec_float) (name_q : string) :
  ascii_only name_q = true ->
  List.Forall (fun e => name e <> "" /\ ascii_only (name e) = true) (index self) ->
  exists results,
    search_by_name self name_q false = Some results /\
    List.Forall
      (fun r => (String.length name_q <= String.length (name (element r)))%nat /\
                score r = Binary64.truediv (String.length name_q)
                                           (String.length (name (element r))) /\
                B64.nonneg (score r) = true)
      results.
Proof.
  intros Hq Hnames.
  assert (Hne : List.Forall (fun e => name e <> "") (index self)).
  { eapply List.Forall_impl; [|exact Hnames]. cbv beta. tauto. }
  eexists. split.
  { unfold search_by_name.
    rewrite (search_by_name_loop_run name_q false (index self) [] (fun _ => Hne)).
    reflexivity. }
  rewrite List.Forall_forall. intros r Hr. apply sort_desc_In in Hr. cbn [app] in Hr.
  apply in_map_iff in Hr as (elem & <- & Helem).
  apply filter_In in Helem as [Hin Hmatch]. unfold name_match in Hmatch.
  rewrite List.Forall_forall in Hnames. destruct (Hnames elem Hin) as [Hname Hascii].
  apply contains_length in Hmatch.
  rewrite (lower_length _ Hq), (lower_length _ Hascii) in Hmatch.
  unfold name_hit. cbn [score element].
  split; [exact Hmatch|]. split; [reflexivity|].
  apply truediv_nonneg. destruct (name elem); [congruence | discriminate].
Qed.

(** On the index of four elements the query ["CONFIG"] gives the scores
    [6 / 11], [6 / 11] and [6 / 12]. *)
Lemma search_by_name_scores_nonneg_witness :
  exists results,
    search_by_name (@ranked_search spec_float) "CONFIG" false = Some results /\
    map score results = [of_Q (6 # 11); of_Q (6 # 11); of_Q (1 # 2)] /\
    List.Forall
      (fun r => (String.length "CONFIG" <= String.length (name (element r)))%nat /\
                score r = Binary64.truediv (String.length "CONFIG")
                                           (String.length (name (element r))) /\
                B64.nonneg (score r) = true)
      results.
Proof.
  destruct (search_by_name_scores_nonneg (@ranked_search spec_float) "CONFIG")
    as (results & Hres & Hall).
  - reflexivity.
  - repeat constructor; discriminate.
  - exists results. split; [exact Hres|]. split; [|exact Hall].
    assert (E : search_by_name (@ranked_search spec_float) "CONFIG" false
                = Some (map (name_hit "CONFIG" false)
                          [elem_ConfigError; elem_config_path; elem_parse_config]))
      by (vm_compute; reflexivity).
    rewrite E in Hres. injection Hres as <-. vm_compute. reflexivity.
Defined.

(** ** Construction *)

(** X24: a new search object has the given index, an empty (hence
    coherent) cache and no recorded call.  TF-IDF is in use only if
    scikit-learn is present, was asked for and fitted the texts
    synthesised from the index, which are then aligned with it; in every
    other case semantic and hybrid search answer as keyword search. *)
Theorem new_CodeSearch_spec {F} `{ScoreArith F}
    (sklearn : option (list string -> option (VectorBackend F)))
    (idx : CodeIndex) (use_tfidf_arg : bool) :
  let self := new_CodeSearch sklearn idx use_tfidf_arg in
  index self = idx /\ query_cache self = ∅ /\ calls self = [] /\
  cache_coherent self /\
  (use_tfidf self = true ->
   exists fit_transform vb,
     sklearn = Some fit_transform /\ use_tfidf_arg = true /\
     fit_transform (map element_text idx) = Some vb /\
     vectorizer self = Some vb /\
     element_texts self = map element_text (index self)) /\
  (use_tfidf self = false ->
   forall query top_k,
     fst (semantic_search query top_k self) = fst (keyword_search query top_k self) /\
     fst (hybrid_search query top_k self) = fst (keyword_search query top_k self)).
Proof.
  cbv zeta.
  assert (Hbasic : index (new_CodeSearch sklearn idx use_tfidf_arg) = idx /\
                   query_cache (new_CodeSearch sklearn idx use_tfidf_arg) = ∅ /\
                   calls (new_CodeSearch sklearn idx use_tfidf_arg) = []).
  { unfold new_CodeSearch. destruct sklearn as [fit|]; [|auto].
    destruct use_tfidf_arg; [|auto]. destruct (fit (map element_text idx)); auto. }
  destruct Hbasic as (Hidx & Hcache & Hcalls).
  split; [exact Hidx|]. split; [exact Hcache|]. split; [exact Hcalls|]. split.
  { intros q k cached Hget. rewrite Hcache, lookup_empty in Hget. discriminate. }
  split.
  - unfold new_CodeSearch. destruct sklearn as [fit|]; [|discriminate].
    destruct use_tfidf_arg; [|discriminate].
    destruct (fit (map element_text idx)) as [vb|] eqn:Efit; [|discriminate].
    intros _. exists fit, vb. auto.
  - set (self := new_CodeSearch sklearn idx use_tfidf_arg) in *.
    intros Hoff query top_k. split.
    + rewrite semantic_search_cases. cbv zeta. rewrite Hoff.
      now apply keyword_search_config.
    + assert (Hmiss : query_cache self !! cache_key query top_k = None)
        by (rewrite Hcache; apply lookup_empty).
      rewrite (hybrid_search_miss _ _ _ Hmiss). cbn [fst].
      now rewrite hybrid_fresh_cases, Hoff.
Qed.
